(** * The yaml_metadata block capsule filter of panmirror

    A shallow embedding of
    [src/gwt/panmirror/src/editor/src/nodes/yaml_metadata/yaml_metadata.ts]:
    the [blockCapsuleFilter] of the [yaml_metadata] node ([match], [enclose],
    [handleText], [handleToken], [writeNode]) and its pandoc [writer].

    JavaScript strings are modelled as lists of 8-bit characters; the
    regular expressions of the source are embedded as syntax trees and run by
    a backtracking matcher that follows the priorities of the ECMAScript
    matcher (left alternative first, greedy and lazy repetition).  The shared
    regular expression object [kEncodedBlockCapsuleRegEx] is stateful in the
    source (its [lastIndex]); that state is threaded explicitly. *)

From Stdlib Require Import Ascii String List Bool Arith ZArith Lia.
Import ListNotations.

Set Implicit Arguments.
Set Warnings "-register-all".
Local Open Scope list_scope.

(** ** Strings *)

Definition text := list ascii.

Definition LF : ascii := ascii_of_nat 10.
Definition CR : ascii := ascii_of_nat 13.
Definition TAB : ascii := ascii_of_nat 9.

(** [js "..."] reads a JavaScript string literal: the escapes [\n], [\t]
    and [\r] are interpreted, and a backslash before any other character
    stands for that character. *)
Fixpoint unescape (esc : bool) (s : text) : text :=
  match s with
  | [] => []
  | c :: s' =>
      if esc then
        (if Ascii.eqb c "n" then LF
         else if Ascii.eqb c "t" then TAB
         else if Ascii.eqb c "r" then CR
         else c) :: unescape false s'
      else if Ascii.eqb c "\" then unescape true s'
      else c :: unescape false s'
  end.

Definition js (s : string) : text := unescape false (list_ascii_of_string s).

Definition text_eqb (s t : text) : bool :=
  if list_eq_dec ascii_dec s t then true else false.

(** [String.prototype.toLowerCase] on the 8-bit range. *)
Definition lower (c : ascii) : ascii :=
  let n := nat_of_ascii c in
  if (65 <=? n) && (n <=? 90) then ascii_of_nat (n + 32) else c.

Definition toLowerCase (s : text) : text := map lower s.

(** [S.substring(i, j)] for [i <= j]. *)
Definition substring (i j : nat) (s : text) : text := firstn (j - i) (skipn i s).

(** [t] occurs in [s] as a contiguous run. *)
Definition occurs (t s : text) : Prop := exists u v, s = u ++ t ++ v.

Fixpoint starts_with (t s : text) : bool :=
  match t, s with
  | [], _ => true
  | c :: t', d :: s' => Ascii.eqb c d && starts_with t' s'
  | _ :: _, [] => false
  end.

Fixpoint occursb (t s : text) : bool :=
  starts_with t s ||
  match s with
  | [] => false
  | _ :: s' => occursb t s'
  end.

(** ** Regular expressions

    The fragment of ECMAScript regular expressions that the patterns of the
    source use: literals, character classes, concatenation, alternation,
    greedy and lazy repetition of a character class, capturing groups, and
    the assertions [^] and [$] under the [m] flag. *)

Inductive RegExpNode : Type :=
| Empty
| Class (p : ascii -> bool)
| Seq (r1 r2 : RegExpNode)
| Alt (r1 r2 : RegExpNode)
| Star (p : ascii -> bool)
| StarLazy (p : ascii -> bool)
| Group (n : nat) (r : RegExpNode)
| LineStart
| LineEnd.

Fixpoint Lit (s : text) : RegExpNode :=
  match s with
  | [] => Empty
  | c :: s' => Seq (Class (Ascii.eqb c)) (Lit s')
  end.

(** The line terminators of the 8-bit range. *)
Definition isLineTerminator (c : ascii) : bool :=
  Ascii.eqb c LF || Ascii.eqb c CR.

(** [^] and [$] under the [m] flag: the position starts, or ends, a line. *)
Definition lineStarts (b : text) : bool :=
  match b with [] => true | c :: _ => isLineTerminator c end.

Definition lineEnds (a : text) : bool :=
  match a with [] => true | c :: _ => isLineTerminator c end.

(** Captures: the text of each group that has matched, latest first. *)
Definition Captures := list (nat * text).

Fixpoint capture (n : nat) (cs : Captures) : text :=
  match cs with
  | [] => []
  | (k, t) :: cs' => if Nat.eqb k n then t else capture n cs'
  end.

(** The matcher state is the input before the current position, reversed,
    the input from the current position on, and the captures so far. *)
Section Matcher.
Variable R : Type.

Definition Continuation := text -> text -> Captures -> option R.

(** [p*]: as many characters as possible first, then fewer. *)
Fixpoint star (p : ascii -> bool) (b a : text) (k : text -> text -> option R)
  : option R :=
  match a with
  | c :: a' =>
      if p c then
        match star p (c :: b) a' k with
        | Some x => Some x
        | None => k b a
        end
      else k b a
  | [] => k b a
  end.

(** [p*?]: as few characters as possible first, then more. *)
Fixpoint starLazy (p : ascii -> bool) (b a : text) (k : text -> text -> option R)
  : option R :=
  match k b a with
  | Some x => Some x
  | None =>
      match a with
      | c :: a' => if p c then starLazy p (c :: b) a' k else None
      | [] => None
      end
  end.

Fixpoint run (r : RegExpNode) (b a : text) (cs : Captures) (k : Continuation)
  : option R :=
  match r with
  | Empty => k b a cs
  | Class p =>
      match a with
      | c :: a' => if p c then k (c :: b) a' cs else None
      | [] => None
      end
  | Seq r1 r2 => run r1 b a cs (fun b' a' cs' => run r2 b' a' cs' k)
  | Alt r1 r2 =>
      match run r1 b a cs k with
      | Some x => Some x
      | None => run r2 b a cs k
      end
  | Star p => star p b a (fun b' a' => k b' a' cs)
  | StarLazy p => starLazy p b a (fun b' a' => k b' a' cs)
  | Group n r1 =>
      run r1 b a cs
        (fun b' a' cs' =>
           k b' a' ((n, rev (firstn (length b' - length b) b')) :: cs'))
  | LineStart => if lineStarts b then k b a cs else None
  | LineEnd => if lineEnds a then k b a cs else None
  end.
End Matcher.

(** A compiled pattern: tried at one position, with the input before the
    position (reversed) and the input from it, it gives the length of the
    match and the texts of groups 1, 2, ... *)
Definition Matcher := text -> text -> option (nat * list text).

Record RegExp : Type := mkRegExp {
  re_node : RegExpNode;
  re_groups : nat
}.

Definition matcher (re : RegExp) : Matcher :=
  fun b a =>
    run (re_node re) b a []
      (fun b' _ cs =>
         Some (length b' - length b,
               map (fun n => capture n cs) (seq 1 (re_groups re)))).

(** [matches r b w a]: the text [w] is in the language of [r] when it
    stands between [b] (reversed) and [a]. *)
Fixpoint matches (r : RegExpNode) (b w a : text) : Prop :=
  match r with
  | Empty => w = []
  | Class p => exists c, w = [c] /\ p c = true
  | Seq r1 r2 =>
      exists w1 w2,
        w = w1 ++ w2 /\ matches r1 b w1 (w2 ++ a) /\ matches r2 (rev w1 ++ b) w2 a
  | Alt r1 r2 => matches r1 b w a \/ matches r2 b w a
  | Star p => forallb p w = true
  | StarLazy p => forallb p w = true
  | Group _ r1 => matches r1 b w a
  | LineStart => w = [] /\ lineStarts b = true
  | LineEnd => w = [] /\ lineEnds a = true
  end.

(** ** The match pattern of the yaml filter

    In the source, with the flags [g] and [m]:
    [^ ( [\t >]* ) ( --- [ \t]* \n [\W\w]*? (?: \n--- | \n\.\.\. ) ) ( [ \t]* ) $]
    (written here with blanks between its parts). *)

Definition cls_tab_sp_gt (c : ascii) : bool :=
  Ascii.eqb c TAB || Ascii.eqb c " " || Ascii.eqb c ">".
Definition cls_sp_tab (c : ascii) : bool :=
  Ascii.eqb c " " || Ascii.eqb c TAB.
Definition cls_any (c : ascii) : bool := true.

Definition yaml_body : RegExpNode :=
  Seq (Lit (js "---"))
   (Seq (Star cls_sp_tab)
    (Seq (Lit (js "\n"))
     (Seq (StarLazy cls_any)
          (Alt (Lit (js "\n---")) (Lit (js "\n...")))))).

Definition yaml_match : RegExp :=
  mkRegExp
    (Seq LineStart
      (Seq (Group 1 (Star cls_tab_sp_gt))
       (Seq (Group 2 yaml_body)
        (Seq (Group 3 (Star cls_sp_tab)) LineEnd))))
    3.

(** ** The yaml pattern read directly

    What the pattern matches at a position, written as a function of the
    text; [yaml_match_direct] below proves it equal to the matcher. *)

Fixpoint takeWhile (p : ascii -> bool) (a : text) : text :=
  match a with
  | c :: a' => if p c then c :: takeWhile p a' else []
  | [] => []
  end.

Fixpoint dropWhile (p : ascii -> bool) (a : text) : text :=
  match a with
  | c :: a' => if p c then dropWhile p a' else a
  | [] => []
  end.

(** A closing delimiter stands at the head of [a], and only blanks follow
    it on its line. *)
Definition closes (a : text) : bool :=
  (starts_with (js "\n---") a || starts_with (js "\n...") a)
  && lineEnds (dropWhile cls_sp_tab (skipn 4 a)).

(** The shortest body before a closing delimiter, and the text from that
    delimiter on. *)
Fixpoint findClose (a : text) : option (text * text) :=
  if closes a then Some ([], a)
  else
    match a with
    | [] => None
    | c :: a' =>
        match findClose a' with
        | Some (body, r) => Some (c :: body, r)
        | None => None
        end
    end.

(** The block that the yaml pattern matches at a position, read off the
    pattern: the leading context, the body with its delimiters, and the
    trailing blanks. *)
Definition yamlBlockAt (b a : text) : option (text * text * text) :=
  if lineStarts b then
    let p1 := takeWhile cls_tab_sp_gt a in
    let a1 := dropWhile cls_tab_sp_gt a in
    if starts_with (js "---") a1 then
      let ws := takeWhile cls_sp_tab (skipn 3 a1) in
      let a3 := dropWhile cls_sp_tab (skipn 3 a1) in
      if starts_with (js "\n") a3 then
        match findClose (skipn 1 a3) with
        | Some (body, r) =>
            Some (p1,
                  js "---" ++ ws ++ js "\n" ++ body ++ firstn 4 r,
                  takeWhile cls_sp_tab (skipn 4 r))
        | None => None
        end
      else None
    else None
  else None.

(** ** Regular expression objects with the [g] flag

    [RegExpBuiltinExec], and the loops of [String.prototype.replace] and
    [String.prototype.match], after ECMA-262.  A regular expression object
    carries one piece of state, [lastIndex]. *)

Record MatchResult : Type := mkMatch {
  m_index : nat;
  m_text : text;
  m_groups : list text
}.

(** A replacer function: the matched text and the groups [p1, p2, ...]. *)
Definition Replacer := text -> list text -> text.

Inductive Segment : Type :=
| Keep (c : ascii)
| Span (m : text) (gs : list text).

Definition source_of (sg : list Segment) : text :=
  flat_map (fun x => match x with Keep c => [c] | Span m _ => m end) sg.

Definition render (fn : Replacer) (sg : list Segment) : text :=
  flat_map (fun x => match x with Keep c => [c] | Span m gs => fn m gs end) sg.

Definition is_span (x : Segment) : bool :=
  match x with Keep _ => false | Span _ _ => true end.

Definition spans (sg : list Segment) : list text :=
  map (fun x => match x with Keep _ => [] | Span m _ => m end)
      (filter is_span sg).

Section Exec.
Variable re : Matcher.

(** The first position from the current one at which the pattern matches. *)
Fixpoint matchFrom (b a : text) (i : nat) : option MatchResult :=
  match re b a with
  | Some (len, gs) => Some (mkMatch i (firstn len a) gs)
  | None =>
      match a with
      | [] => None
      | c :: a' => matchFrom (c :: b) a' (S i)
      end
  end.

(** [RegExpBuiltinExec(R, S)]: the result and the new [lastIndex]. *)
Definition RegExpExec (s : text) (lastIndex : nat) : option MatchResult * nat :=
  if length s <? lastIndex then (None, 0)
  else
    match matchFrom (rev (firstn lastIndex s)) (skipn lastIndex s) lastIndex with
    | Some r => (Some r, m_index r + length (m_text r))
    | None => (None, 0)
    end.

(** The loop that [replace] and [match] share: exec until it fails,
    stepping over an empty match. *)
Fixpoint execLoop (fuel : nat) (s : text) (lastIndex : nat)
  : option (list MatchResult * nat) :=
  match fuel with
  | 0 => None
  | S fuel' =>
      match RegExpExec s lastIndex with
      | (None, li) => Some ([], li)
      | (Some r, li) =>
          let li' := match m_text r with [] => S li | _ :: _ => li end in
          match execLoop fuel' s li' with
          | Some (rs, lf) => Some (r :: rs, lf)
          | None => None
          end
      end
  end.

(** The second half of [RegExp.prototype[@@replace]]. *)
Fixpoint accumulate (fn : Replacer) (s : text) (rs : list MatchResult)
         (nextSourcePosition : nat) : text :=
  match rs with
  | [] => skipn nextSourcePosition s
  | r :: rs' =>
      let position := Nat.min (m_index r) (length s) in
      if nextSourcePosition <=? position then
        substring nextSourcePosition position s
          ++ fn (m_text r) (m_groups r)
          ++ accumulate fn s rs' (position + length (m_text r))
      else accumulate fn s rs' nextSourcePosition
  end.

(** The input cut into kept characters and matched spans, by one pass
    from left to right; [skip] characters of a span remain to step over. *)
Fixpoint segments (b a : text) (skip : nat) : list Segment :=
  match skip with
  | S k =>
      match a with
      | [] => []
      | c :: a' => segments (c :: b) a' k
      end
  | 0 =>
      match re b a with
      | Some (len, gs) =>
          Span (firstn len a) gs ::
          match a with
          | [] => []
          | c :: a' =>
              match firstn len a with
              | [] => Keep c :: segments (c :: b) a' 0
              | _ :: m' => segments (c :: b) a' (length m')
              end
          end
      | None =>
          match a with
          | [] => []
          | c :: a' => Keep c :: segments (c :: b) a' 0
          end
      end
  end.
End Exec.

(** Computations on the regular expression object: [lastIndex] is threaded,
    and [None] stands for a loop that did not finish. *)
Definition M (A : Type) : Type := nat -> option (A * nat).

Definition ret {A} (x : A) : M A := fun li => Some (x, li).
Definition bind {A B} (m : M A) (f : A -> M B) : M B :=
  fun li => match m li with Some (x, li') => f x li' | None => None end.
Definition set_lastIndex (n : nat) : M unit := fun _ => Some (tt, n).

Notation "x <- m ;; k" := (bind m (fun x => k))
  (at level 61, m at next level, right associativity).
Notation "m ;;; k" := (bind m (fun _ => k))
  (at level 61, right associativity).

(** [S.replace(re, fn)] for a global [re]. *)
Definition String_replace (re : Matcher) (fn : Replacer) (s : text) : M text :=
  set_lastIndex 0 ;;;
  fun li =>
    match execLoop re (length s + 2) s li with
    | Some (rs, li') => Some (accumulate fn s rs 0, li')
    | None => None
    end.

(** [S.match(re)] for a global [re]: every matched text, or [null]. *)
Definition String_match (re : Matcher) (s : text) : M (option (list text)) :=
  set_lastIndex 0 ;;;
  fun li =>
    match execLoop re (length s + 2) s li with
    | Some ([], li') => Some (None, li')
    | Some (rs, li') => Some (Some (map m_text rs), li')
    | None => None
    end.

(** ** Capsules

    [PandocBlockCapsule] is declared in [api/pandoc]; the fields are those
    of the capsule record of the specification. *)
Record PandocBlockCapsule : Type := mkCapsule {
  capsule_id : nat;
  capsule_type : text;
  capsule_source : text;
  capsule_enclosedText : text
}.

Definition kYamlMetadataCapsuleType : text :=
  toLowerCase (js "E1819605-0ACD-4FAE-8B99-9C1B7BD7C0F1").

(** ** Pandoc tokens

    Tokens as pandoc's schema has them: [tok.t] is the constructor, the
    content [tok.c] of a [Para] is a list of inlines and that of a [Str] is
    a string. *)
Inductive PandocToken : Type :=
| Str (c : text)
| Space
| SoftBreak
| LineBreak
| Emph (c : list PandocToken)
| Strong (c : list PandocToken)
| Code (c : text)
| RawInline (format : text) (c : text)
| Para (c : list PandocToken)
| Plain (c : list PandocToken)
| Header (level : nat) (c : list PandocToken)
| CodeBlock (c : text)
| RawBlock (format : text) (c : text)
| BlockQuote (c : list PandocToken)
| HorizontalRule
| Null.

(** ** The document tree and its writer

    Modelled from the spec: [ProsemirrorWriter] and the prosemirror node
    (declared in [api/pandoc] and in prosemirror-model, not under src/).
    The host offers node creation with a type tag, an attribute map and
    text content; the writer keeps a stack of open nodes, the innermost
    first, above a root that is always open. *)
Inductive NodeType : Type :=
| doc
| paragraph
| yaml_metadata.

Inductive ProsemirrorNode : Type :=
| PMText (s : text)
| PMNode (type : NodeType) (attrs : list (text * text))
         (content : list ProsemirrorNode).

Definition node_content (n : ProsemirrorNode) : list ProsemirrorNode :=
  match n with
  | PMText _ => []
  | PMNode _ _ c => c
  end.

(** The text of a fragment whose children are text nodes (the content of a
    code node such as [yaml_metadata]). *)
Definition fragment_text (c : list ProsemirrorNode) : text :=
  flat_map (fun n => match n with PMText s => s | PMNode _ _ _ => [] end) c.

Definition textContent (n : ProsemirrorNode) : text :=
  match n with
  | PMText s => s
  | PMNode _ _ c => fragment_text c
  end.

Record OpenNode : Type := mkOpen {
  open_type : NodeType;
  open_attrs : list (text * text);
  open_content : list ProsemirrorNode
}.

Record ProsemirrorWriter : Type := mkWriter {
  w_top : OpenNode;
  w_below : list OpenNode
}.

Definition add_child (n : ProsemirrorNode) (o : OpenNode) : OpenNode :=
  mkOpen (open_type o) (open_attrs o) (open_content o ++ [n]).

Definition openNode (ty : NodeType) (attrs : list (text * text))
           (w : ProsemirrorWriter) : option ProsemirrorWriter :=
  Some (mkWriter (mkOpen ty attrs []) (w_top w :: w_below w)).

Definition writeText (s : text) (w : ProsemirrorWriter) : option ProsemirrorWriter :=
  Some (mkWriter (add_child (PMText s) (w_top w)) (w_below w)).

Definition closeNode (w : ProsemirrorWriter) : option ProsemirrorWriter :=
  match w_below w with
  | [] => None
  | parent :: rest =>
      let o := w_top w in
      Some (mkWriter
              (add_child (PMNode (open_type o) (open_attrs o) (open_content o)) parent)
              rest)
  end.

Definition and_then {A B} (m : option A) (f : A -> option B) : option B :=
  match m with
  | Some x => f x
  | None => None
  end.

(** Modelled from the spec: [PandocOutput] (declared in [api/pandoc], not
    under src/).  The output collects the tokens written at the current
    level; [writeToken] writes a token whose content is what its callback
    writes, [writeRawMarkdown] writes the text of a fragment as raw markdown. *)
Definition PandocOutput := list PandocToken.

Definition writeToken_Para (content : PandocOutput -> PandocOutput)
           (output : PandocOutput) : PandocOutput :=
  output ++ [Para (content [])].

Definition writeRawMarkdown (c : list ProsemirrorNode) (output : PandocOutput)
  : PandocOutput :=
  output ++ [RawInline (js "markdown") (fragment_text c)].

(** ** The block capsule filter of [yaml_metadata] *)

Inductive Call : Type :=
| CallHandleText (t : text)
| CallHandleToken (tok : PandocToken)
| CallExec (s : text).

Section Filter.
(** [kEncodedBlockCapsuleRegEx] and [parsePandocBlockCapsule] are imported
    from [api/pandoc], which is not under src/. *)
Variable kEncodedBlockCapsuleRegEx : Matcher.
Variable parsePandocBlockCapsule : text -> PandocBlockCapsule.

Definition enclose (capsuleText : text) : text := capsuleText ++ js "\n".

(** The callback that [handleText] passes to [replace]. *)
Definition decodeCapsule : Replacer :=
  fun match_ groups =>
    let p1 := nth 0 groups [] in
    let capsuleText := p1 in
    let capsule := parsePandocBlockCapsule capsuleText in
    if text_eqb (capsule_type capsule) kYamlMetadataCapsuleType
    then capsule_source capsule
    else match_.

Definition handleText (t : text) : M text :=
  set_lastIndex 0 ;;;
  String_replace kEncodedBlockCapsuleRegEx decodeCapsule t.

Definition handleToken (tok : PandocToken) : M (option text) :=
  match tok with
  | Para [Str t] =>
      set_lastIndex 0 ;;;
      match_ <- String_match kEncodedBlockCapsuleRegEx t ;;
      match match_ with
      | Some (m0 :: _) =>
          let capsuleRecord := parsePandocBlockCapsule m0 in
          if text_eqb (capsule_type capsuleRecord) kYamlMetadataCapsuleType
          then ret (Some m0)
          else ret None
      | _ => ret None
      end
  | _ => ret None
  end.

(** What the residual decoder returns, as a function of the text alone. *)
Definition decoded (t : text) : text :=
  render decodeCapsule (segments kEncodedBlockCapsuleRegEx [] t 0).

(** What the interceptor probe returns, as a function of the token alone. *)
Definition probed (tok : PandocToken) : option text :=
  match tok with
  | Para [Str t] =>
      match matchFrom kEncodedBlockCapsuleRegEx [] t 0 with
      | Some r =>
          if text_eqb (capsule_type (parsePandocBlockCapsule (m_text r)))
                      kYamlMetadataCapsuleType
          then Some (m_text r)
          else None
      | None => None
      end
  | _ => None
  end.

(** What the claim of type-scoping says of one occurrence: a placeholder of
    another type stays as it is, one of the yaml type gives way to the
    source of its capsule. *)
Definition resolveOccurrence (x : Segment) : text :=
  match x with
  | Keep c => [c]
  | Span m gs =>
      let capsule := parsePandocBlockCapsule (nth 0 gs []) in
      if text_eqb (capsule_type capsule) kYamlMetadataCapsuleType
      then capsule_source capsule
      else m
  end.

(** No placeholder of the yaml type occurs in [t]. *)
Definition yamlFree (t : text) : bool :=
  forallb (fun x =>
             match x with
             | Keep _ => true
             | Span _ gs =>
                 negb (text_eqb
                         (capsule_type (parsePandocBlockCapsule (nth 0 gs [])))
                         kYamlMetadataCapsuleType)
             end)
          (segments kEncodedBlockCapsuleRegEx [] t 0).

(** The token is a paragraph of one string run in which a placeholder of
    the yaml type occurs. *)
Definition holdsYamlPlaceholder (tok : PandocToken) : bool :=
  match tok with
  | Para [Str t] =>
      existsb (fun m =>
                 text_eqb (capsule_type (parsePandocBlockCapsule m))
                          kYamlMetadataCapsuleType)
              (spans (segments kEncodedBlockCapsuleRegEx [] t 0))
  | _ => false
  end.

(** Calls on the shared regular expression object: the two entry points
    of the filter, and an [exec] by any other user of the object. *)
Definition call (c : Call) : M unit :=
  match c with
  | CallHandleText t => handleText t ;;; ret tt
  | CallHandleToken tok => handleToken tok ;;; ret tt
  | CallExec s =>
      fun li => Some (tt, snd (RegExpExec kEncodedBlockCapsuleRegEx s li))
  end.

Fixpoint history (h : list Call) : M unit :=
  match h with
  | [] => ret tt
  | c :: h' => call c ;;; history h'
  end.

(** The value a call returns when it runs after the calls of [h], the
    object having started with [lastIndex = li]. *)
Definition result_after (A : Type) (h : list Call) (li : nat) (m : M A) : option A :=
  option_map fst ((history h ;;; m) li).
End Filter.

(** [uuidv4 ()] is passed in as the identifier it returns. *)
Definition writeNode (uuidv4 : text) (writer : ProsemirrorWriter)
           (capsule : PandocBlockCapsule) : option ProsemirrorWriter :=
  and_then (openNode yaml_metadata [(js "navigation_id", uuidv4)] writer) (fun w1 =>
  and_then (writeText (capsule_source capsule) w1) (fun w2 =>
  closeNode w2)).

(** The pandoc [writer] of the node. *)
Definition writer (output : PandocOutput) (node : ProsemirrorNode) : PandocOutput :=
  writeToken_Para (fun o => writeRawMarkdown (node_content node) o) output.

(** ** The insert command

    [YamlMetadataCommand]: what [canInsertNode] and [selectionIsBodyTopLevel]
    answer for the state, and the start of the selection that the
    transaction reports once the node has replaced the selection, are
    observations of the editor state; the transaction is the list of its
    steps. *)
Definition kYamlLeading : text := js "---\n".
Definition kYamlTrailing : text := js "\n---".





(** The probe scans the text of the token. *)
Definition scansToken (tok : PandocToken) : bool :=
  match tok with
  | Para [Str _] => true
  | _ => false
  end.

(** ** The placeholder, the registry and the scanner

    Modelled from the spec: the placeholder pattern
    [kEncodedBlockCapsuleRegEx], [parsePandocBlockCapsule] and the scanner
    (all in [api/pandoc], not under src/).  A placeholder is an opaque token
    that embeds a marker, the type and the id of its capsule; the registry
    maps the placeholder to the capsule record.  The specification gives the
    token no inner structure: group 1 of the pattern spans the whole token,
    so [handleText] (which parses group 1) and [handleToken] (which parses
    the whole match) look up the same key. *)

Definition kBlockCapsuleMarker : text := js "31b8e172-b470-440e-83d8-e6b185028602".

Fixpoint digits_from (fuel n : nat) (acc : text) : text :=
  match fuel with
  | 0 => acc
  | S fuel' =>
      let d := ascii_of_nat (48 + n mod 10) in
      if n <? 10 then d :: acc else digits_from fuel' (n / 10) (d :: acc)
  end.

Definition digits (n : nat) : text := digits_from (S n) n [].

Definition placeholder (type : text) (id : nat) : text :=
  kBlockCapsuleMarker ++ js ":" ++ type ++ js ":" ++ digits id ++ js ":"
    ++ kBlockCapsuleMarker.

Definition cls_digit (c : ascii) : bool :=
  let n := nat_of_ascii c in (48 <=? n) && (n <=? 57).
Definition cls_type (c : ascii) : bool :=
  let n := nat_of_ascii c in
  cls_digit c || ((97 <=? n) && (n <=? 122)) || Ascii.eqb c "-".

Definition placeholderRegEx : RegExp :=
  mkRegExp
    (Group 1
      (Seq (Lit kBlockCapsuleMarker)
      (Seq (Lit (js ":"))
      (Seq (Star cls_type)
      (Seq (Lit (js ":"))
      (Seq (Star cls_digit)
      (Seq (Lit (js ":")) (Lit kBlockCapsuleMarker))))))))
    1.

Definition Registry := list (text * PandocBlockCapsule).

Fixpoint lookup (key : text) (reg : Registry) : option PandocBlockCapsule :=
  match reg with
  | [] => None
  | (k, r) :: reg' => if text_eqb k key then Some r else lookup key reg'
  end.

(** A lookup that misses gives a record of no filter. *)
Definition unknownCapsule : PandocBlockCapsule := mkCapsule 0 [] [] [].

Definition parseWith (reg : Registry) (capsuleText : text) : PandocBlockCapsule :=
  match lookup capsuleText reg with
  | Some r => r
  | None => unknownCapsule
  end.

Record FilterSpec : Type := mkFilter {
  f_type : text;
  f_match : Matcher;
  f_enclose : text -> text
}.

(** Each match, from left to right: the groups are the leading context, the
    body and the trailing whitespace; a record with a new id is entered
    under the placeholder, and the matched span is replaced by the leading
    context, the placeholder and a line feed. *)
Fixpoint encode (f : FilterSpec) (sg : list Segment) (reg : Registry)
  : text * Registry :=
  match sg with
  | [] => ([], reg)
  | Keep c :: sg' =>
      let (t, reg') := encode f sg' reg in (c :: t, reg')
  | Span _ gs :: sg' =>
      let leading := nth 0 gs [] in
      let body := nth 1 gs [] in
      let id := length reg in
      let key := placeholder (f_type f) id in
      let record := mkCapsule id (f_type f) body (f_enclose f body) in
      let (t, reg') := encode f sg' (reg ++ [(key, record)]) in
      (leading ++ key ++ js "\n" ++ t, reg')
  end.

Definition scanFilter (acc : text * Registry) (f : FilterSpec) : text * Registry :=
  encode f (segments (f_match f) [] (fst acc) 0) (snd acc).

Definition scan (sourceText : text) (filters : list FilterSpec) : text * Registry :=
  fold_left scanFilter filters (sourceText, []).

Definition yamlFilter : FilterSpec :=
  mkFilter kYamlMetadataCapsuleType (matcher yaml_match) enclose.

(** The residual decoder and the interceptor probe of one pass. *)
Definition decodeText (reg : Registry) (t : text) : M text :=
  handleText (matcher placeholderRegEx) (parseWith reg) t.

Definition probeToken (reg : Registry) (tok : PandocToken) : M (option text) :=
  handleToken (matcher placeholderRegEx) (parseWith reg) tok.

(** The text that the pandoc [writer] emits for a node. *)
Definition emitted (node : ProsemirrorNode) : text :=
  fragment_text (node_content node).

(** Every placeholder occurrence of [t] is absent from the registry. *)
Definition missesRegistry (re : Matcher) (reg : Registry) (t : text) : bool :=
  forallb (fun x =>
             match x with
             | Keep _ => true
             | Span _ gs =>
                 match lookup (nth 0 gs []) reg with
                 | None => true
                 | Some _ => false
                 end
             end)
          (segments re [] t 0).

(** ** Documents *)

(** Scenario 1 of the specification. *)
Definition scenario1 : text := js "---\ntitle: x\n---".

(** A block in a quotation, closed by dots. *)
Definition quotedBlock : text := js "> ---\ntitle: x\n...".

(** A block whose body is the placeholder that the scanner will give it. *)
Definition selfBlock : text :=
  js "---\n" ++ placeholder kYamlMetadataCapsuleType 0 ++ js "\n---".

(** The type of another filter. *)
Definition kOtherCapsuleType : text := js "0a1b2c3d-0000-4000-8000-00000000beef".

Definition twoCapsules : Registry :=
  [(placeholder kOtherCapsuleType 0,
    mkCapsule 0 kOtherCapsuleType (js "::: note") (js "::: note\n"));
   (placeholder kYamlMetadataCapsuleType 1,
    mkCapsule 1 kYamlMetadataCapsuleType scenario1 (scenario1 ++ js "\n"))].

(** * Properties *)

Lemma text_eqb_eq (s t : text) : text_eqb s t = true <-> s = t.
Proof.
  unfold text_eqb. destruct (list_eq_dec ascii_dec s t); split; congruence.
Qed.

Lemma text_eqb_refl (s : text) : text_eqb s s = true.
Proof. now apply text_eqb_eq. Qed.

Lemma text_eqb_neq (s t : text) : text_eqb s t = false <-> s <> t.
Proof.
  unfold text_eqb. destruct (list_eq_dec ascii_dec s t); split; congruence.
Qed.

(** ** Positions in a string as a split of it *)

Lemma firstn_prefix (A : Type) (u a : list A) : firstn (length u) (u ++ a) = u.
Proof. induction u; simpl; congruence. Qed.

Lemma skipn_prefix (A : Type) (u a : list A) : skipn (length u) (u ++ a) = a.
Proof. induction u; simpl; congruence. Qed.

Lemma firstn_split (b a : text) : firstn (length b) (rev b ++ a) = rev b.
Proof. rewrite <- (length_rev b). apply firstn_prefix. Qed.

Lemma skipn_split (b a : text) : skipn (length b) (rev b ++ a) = a.
Proof. rewrite <- (length_rev b). apply skipn_prefix. Qed.

Lemma firstn_length_skipn (A : Type) (n : nat) (a : list A) :
  skipn (length (firstn n a)) a = skipn n a.
Proof.
  revert a; induction n; intros [|x a]; simpl; auto.
Qed.

Lemma firstn_length_firstn (A : Type) (n : nat) (a : list A) :
  firstn (length (firstn n a)) a = firstn n a.
Proof.
  revert a; induction n; intros [|x a]; simpl; auto. now rewrite IHn.
Qed.

(** ** One pass from left to right *)

Section ExecProperties.
Variable re : Matcher.

Lemma matchFrom_none (a b : text) (i : nat) :
  matchFrom re b a i = None -> segments re b a 0 = map Keep a.
Proof.
  revert b i; induction a as [|c a IH]; intros b i; simpl.
  - destruct (re b []) as [[len gs]|]; [discriminate | reflexivity].
  - destruct (re b (c :: a)) as [[len gs]|]; [discriminate |].
    intros H. now rewrite (IH _ _ H).
Qed.

Lemma matchFrom_some (a b : text) (i : nat) (r : MatchResult) :
  matchFrom re b a i = Some r ->
  exists g a2 len,
    a = g ++ a2 /\
    re (rev g ++ b) a2 = Some (len, m_groups r) /\
    m_text r = firstn len a2 /\
    m_index r = i + length g /\
    segments re b a 0 = map Keep g ++ segments re (rev g ++ b) a2 0.
Proof.
  revert b i; induction a as [|c a IH]; intros b i; simpl.
  - destruct (re b []) as [[len gs]|] eqn:E; [|discriminate].
    intros [= <-]. exists [], [], len. simpl. rewrite E.
    repeat split; auto.
  - destruct (re b (c :: a)) as [[len gs]|] eqn:E.
    + intros [= <-]. exists [], (c :: a), len. simpl. rewrite E.
      repeat split; auto.
    + intros H. destruct (IH _ _ H) as (g & a2 & len & -> & Hre & Ht & Hi & Hs).
      exists (c :: g), a2, len. simpl. rewrite <- app_assoc. simpl.
      repeat split; auto; try lia. now rewrite Hs.
Qed.

Lemma segments_skip (k : nat) (a b : text) :
  k <= length a ->
  segments re b a k = segments re (rev (firstn k a) ++ b) (skipn k a) 0.
Proof.
  revert a b; induction k as [|k IH]; intros a b Hk.
  - reflexivity.
  - destruct a as [|c a]; simpl in Hk; [lia|].
    simpl segments at 1. rewrite IH by lia.
    simpl. now rewrite <- app_assoc.
Qed.

Lemma source_of_segments_skip (a b : text) (k : nat) :
  k <= length a -> source_of (segments re b a k) = skipn k a.
Proof.
  revert b k; induction a as [|c a IH]; intros b k Hk.
  - simpl in Hk. assert (k = 0) as -> by lia. simpl.
    destruct (re b []) as [[len gs]|]; simpl; auto.
    now destruct len.
  - destruct k as [|k].
    + simpl. destruct (re b (c :: a)) as [[len gs]|].
      * destruct len as [|len]; simpl.
        -- now rewrite IH by lia.
        -- rewrite IH by (rewrite length_firstn; lia).
           rewrite firstn_length_skipn. now rewrite firstn_skipn.
      * simpl. now rewrite IH by lia.
    + simpl in *. apply IH. lia.
Qed.

(** The cut of a text is a cut of that text: the kept characters and the
    matched spans, in order, make up the input. *)
Lemma source_of_segments (s : text) : source_of (segments re [] s 0) = s.
Proof. now rewrite source_of_segments_skip by lia. Qed.

Lemma render_app (fn : Replacer) (x y : list Segment) :
  render fn (x ++ y) = render fn x ++ render fn y.
Proof. unfold render. apply flat_map_app. Qed.

Lemma render_keep (fn : Replacer) (g : text) : render fn (map Keep g) = g.
Proof. induction g; simpl; congruence. Qed.

Lemma RegExpExec_split (b a : text) :
  RegExpExec re (rev b ++ a) (length b) =
  match matchFrom re b a (length b) with
  | Some r => (Some r, m_index r + length (m_text r))
  | None => (None, 0)
  end.
Proof.
  unfold RegExpExec.
  assert ((length (rev b ++ a) <? length b) = false) as ->.
  { apply Nat.ltb_ge. rewrite length_app, length_rev. lia. }
  now rewrite firstn_split, skipn_split, rev_involutive.
Qed.

Lemma RegExpExec_beyond (s : text) (li : nat) :
  length s < li -> RegExpExec re s li = (None, 0).
Proof.
  intros H. unfold RegExpExec.
  now apply Nat.ltb_lt in H as ->.
Qed.

Lemma substring_split (b a : text) (next : nat) :
  next <= length b ->
  substring next (length b) (rev b ++ a) = skipn next (rev b).
Proof.
  intros H. unfold substring.
  rewrite skipn_app, length_rev.
  replace (next - length b) with 0 by lia. simpl.
  rewrite firstn_app, length_skipn, length_rev.
  replace (length b - next - (length b - next)) with 0 by lia.
  simpl. rewrite app_nil_r.
  apply firstn_all2. rewrite length_skipn, length_rev. lia.
Qed.

(** The loop over [exec] finishes within [length a + 2] rounds, leaves
    [lastIndex] at 0, and what [replace] accumulates from its results is the
    rendering of the one-pass cut. *)
Lemma execLoop_spec (fn : Replacer) (n : nat) :
  forall (b a : text) (next : nat),
    length a + 2 <= n -> next <= length b ->
    exists rs,
      execLoop re n (rev b ++ a) (length b) = Some (rs, 0) /\
      map m_text rs =
        map (fun x => match x with Keep _ => [] | Span m _ => m end)
            (filter is_span (segments re b a 0)) /\
      accumulate fn (rev b ++ a) rs next =
        skipn next (rev b) ++ render fn (segments re b a 0).
Proof.
  induction n as [|n IH]; intros b a next Hn Hnext; [lia|].
  simpl execLoop. rewrite RegExpExec_split.
  destruct (matchFrom re b a (length b)) as [r|] eqn:E.
  - destruct (matchFrom_some _ _ _ E) as (g & a2 & len & -> & Hre & Ht & Hi & Hs).
    set (b2 := rev g ++ b) in *.
    assert (Hb2 : length b2 = m_index r).
    { unfold b2. rewrite length_app, length_rev. lia. }
    assert (Hs2 : rev b ++ g ++ a2 = rev b2 ++ a2).
    { unfold b2. now rewrite rev_app_distr, rev_involutive, <- app_assoc. }
    assert (Hpos : Nat.min (m_index r) (length (rev b ++ g ++ a2)) = length b2).
    { rewrite Hs2, length_app, length_rev. lia. }
    assert (Hfilter : filter is_span (map Keep g) = []).
    { clear. induction g; simpl; auto. }
    rewrite Hs, render_app, render_keep, filter_app, Hfilter.
    change ([] ++ filter is_span (segments re b2 a2 0))
      with (filter is_span (segments re b2 a2 0)).
    destruct r as [ri m gs]; simpl in Hre, Ht, Hi, Hb2, Hpos |- *. subst m.
    assert (Hlb2 : length b2 = length b + length g) by lia.
    clear Hi. subst ri.
    assert (Hacc1 : forall rs',
      accumulate fn (rev b ++ g ++ a2)
        (mkMatch (length b2) (firstn len a2) gs :: rs') next
      = skipn next (rev b) ++ g ++ fn (firstn len a2) gs
          ++ accumulate fn (rev b2 ++ a2) rs'
               (length b2 + length (firstn len a2))).
    { intros rs'. simpl accumulate. rewrite Hpos.
      assert ((next <=? length b2) = true) as -> by (apply Nat.leb_le; lia).
      rewrite Hs2, substring_split by lia.
      unfold b2 at 1. rewrite rev_app_distr, rev_involutive.
      rewrite skipn_app, length_rev.
      replace (next - length b) with 0 by lia. simpl skipn at 2.
      now rewrite <- !app_assoc. }
    destruct a2 as [|c a2].
    + (* an empty match at the end of the input *)
      assert (Hnil : firstn len [] = @nil ascii) by now destruct len.
      rewrite Hnil in *.
      destruct n as [|n]; [rewrite length_app in Hn; simpl in Hn; lia|].
      simpl execLoop. rewrite RegExpExec_beyond.
      2:{ rewrite Hs2, length_app, length_rev. simpl. lia. }
      exists [mkMatch (length b2) [] gs]. split; [reflexivity|].
      simpl segments. rewrite Hre, Hnil. split; [reflexivity|].
      rewrite Hacc1. simpl accumulate.
      rewrite app_nil_r, Nat.add_0_r, <- (length_rev b2), skipn_all.
      simpl. now rewrite !app_nil_r.
    + simpl segments. rewrite Hre.
      destruct (firstn len (c :: a2)) as [|c' m'] eqn:Em.
      * (* an empty match: the next round starts one character on *)
        destruct (IH (c :: b2) a2 (length b2)) as (rs & Hrs & Hm & Hacc).
        { rewrite !length_app in Hn. simpl in Hn. lia. }
        { simpl. lia. }
        simpl rev in Hrs, Hacc. rewrite <- app_assoc in Hrs, Hacc.
        simpl app in Hrs, Hacc. simpl length in Hrs.
        exists (mkMatch (length b2) [] gs :: rs).
        simpl length. rewrite Nat.add_0_r, Hs2, Hrs.
        split; [reflexivity|]. split; [simpl; now rewrite Hm|].
        rewrite <- Hs2, Hacc1. simpl length. rewrite Nat.add_0_r, Hacc.
        rewrite <- (length_rev b2), skipn_prefix. reflexivity.
      * (* a match of one character or more *)
        assert (Hc : c' = c).
        { destruct len; simpl in Em; congruence. }
        subst c'.
        assert (Hm' : m' = firstn (length m') a2).
        { destruct len; simpl in Em; [discriminate|].
          injection Em as <-. now rewrite firstn_length_firstn. }
        assert (Hlen : length m' <= length a2).
        { destruct len; simpl in Em; [discriminate|].
          injection Em as <-. rewrite length_firstn. lia. }
        rewrite segments_skip by auto.
        set (b3 := rev (firstn (length m') a2) ++ c :: b2).
        assert (Hb3 : length b3 = length b2 + length (c :: m')).
        { unfold b3. rewrite length_app, length_rev, length_firstn. simpl. lia. }
        assert (Hs3 : rev b2 ++ c :: a2 = rev b3 ++ skipn (length m') a2).
        { unfold b3. rewrite rev_app_distr, rev_involutive. simpl.
          rewrite <- !app_assoc. simpl. now rewrite firstn_skipn. }
        destruct (IH b3 (skipn (length m') a2) (length b3)) as (rs & Hrs & Hm & Hacc).
        { rewrite !length_app in Hn. simpl in Hn. rewrite length_skipn. lia. }
        { lia. }
        exists (mkMatch (length b2) (c :: m') gs :: rs).
        rewrite <- Hb3, Hs2, Hs3, Hrs.
        split; [reflexivity|]. split; [simpl; now rewrite Hm|].
        rewrite <- Hs3, <- Hs2, Hacc1, <- Hb3, Hs3, Hacc.
        rewrite <- (length_rev b3), skipn_all. reflexivity.
  - rewrite (matchFrom_none _ _ _ E), render_keep.
    exists []. split; [reflexivity|]. split.
    + clear. induction a; simpl; auto.
    + simpl. rewrite skipn_app, length_rev.
      replace (next - length b) with 0 by lia. reflexivity.
Qed.
Lemma source_of_app (x y : list Segment) :
  source_of (x ++ y) = source_of x ++ source_of y.
Proof. unfold source_of. apply flat_map_app. Qed.

(** Every span of the cut is a match of the pattern where it stands: the
    pattern, tried after the text before the span, matches the span. *)
Lemma segments_spans_match (n : nat) :
  forall (a b : text) (pre post : list Segment) (m : text) (gs : list text),
    length a <= n ->
    segments re b a 0 = pre ++ Span m gs :: post ->
    exists len,
      re (rev (source_of pre) ++ b) (m ++ source_of post) = Some (len, gs) /\
      m = firstn len (m ++ source_of post).
Proof.
  induction n as [|n IH]; intros a b pre post m gs Hn Hsg.
  - destruct a as [|c a]; [|simpl in Hn; lia].
    cbn [segments] in Hsg.
    destruct (re b []) as [[len gs0]|] eqn:E.
    + assert (Hnil : firstn len (@nil ascii) = []) by now destruct len.
      rewrite Hnil in Hsg.
      destruct pre as [|x pre]; [|destruct pre; discriminate].
      injection Hsg as <- <- <-. exists len. simpl. now rewrite E, Hnil.
    + destruct pre; discriminate.
  - destruct a as [|c a].
    { apply (IH [] b pre post m gs); [simpl; lia | exact Hsg]. }
    assert (Hsrc := @source_of_segments_skip (c :: a) b 0 (Nat.le_0_l _)).
    cbn [skipn] in Hsrc.
    cbn [segments] in Hsg, Hsrc.
    destruct (re b (c :: a)) as [[len gs0]|] eqn:E.
    + destruct pre as [|x pre].
      * (* the span is the match found here *)
        cbn [app] in Hsg. injection Hsg as Hm Hgs Hpost.
        rewrite Hpost in Hsrc. cbn [source_of flat_map] in Hsrc.
        fold (source_of post) in Hsrc.
        subst gs0. rewrite Hm in Hsrc.
        exists len. cbn [source_of flat_map rev app]. rewrite Hsrc. auto.
      * cbn [app] in Hsg. injection Hsg as Hx Htail. subst x.
        destruct (firstn len (c :: a)) as [|c' m'] eqn:Em.
        -- (* an empty match, then the character is kept *)
           destruct pre as [|y pre]; [discriminate|].
           cbn [app] in Htail. injection Htail as Hy Htail. subst y.
           destruct (IH a (c :: b) pre post m gs) as (l & Hre & Hmm);
             [simpl in Hn; lia | exact Htail |].
           exists l. split; [|exact Hmm].
           cbn [source_of flat_map app]. fold (source_of pre).
           cbn [app rev]. now rewrite <- app_assoc.
        -- assert (Hc : c' = c) by (destruct len; simpl in Em; congruence).
           subst c'.
           assert (Hm' : m' = firstn (length m') a).
           { destruct len; simpl in Em; [discriminate|].
             injection Em as <-. now rewrite firstn_length_firstn. }
           assert (Hlen : length m' <= length a).
           { destruct len; simpl in Em; [discriminate|].
             injection Em as <-. rewrite length_firstn. lia. }
           rewrite segments_skip in Htail by exact Hlen.
           destruct (IH (skipn (length m') a)
                        (rev (firstn (length m') a) ++ c :: b) pre post m gs)
             as (l & Hre & Hmm);
             [rewrite length_skipn; simpl in Hn; lia | exact Htail |].
           exists l. split; [|exact Hmm].
           cbn [source_of flat_map]. fold (source_of pre).
           rewrite <- Hm' in Hre.
           cbn [app rev]. rewrite rev_app_distr. cbn [rev app].
           now rewrite <- !app_assoc.
    + destruct pre as [|y pre]; [discriminate|].
      cbn [app] in Hsg. injection Hsg as Hy Htail. subst y.
      destruct (IH a (c :: b) pre post m gs) as (l & Hre & Hmm);
        [simpl in Hn; lia | exact Htail |].
      exists l. split; [|exact Hmm].
      cbn [source_of flat_map app]. fold (source_of pre).
      cbn [app rev]. now rewrite <- app_assoc.
Qed.
End ExecProperties.

(** ** [replace] and [match] as one pass *)

Lemma String_replace_spec (re : Matcher) (fn : Replacer) (s : text) (li : nat) :
  String_replace re fn s li = Some (render fn (segments re [] s 0), 0).
Proof.
  unfold String_replace, bind, set_lastIndex.
  destruct (execLoop_spec re fn (n := length s + 2) [] s (next := 0))
    as (rs & Hrs & _ & Hacc); [lia | simpl; lia |].
  simpl in Hrs, Hacc. now rewrite Hrs, Hacc.
Qed.

Lemma String_match_spec (re : Matcher) (s : text) (li : nat) :
  String_match re s li =
  Some (match spans (segments re [] s 0) with
        | [] => None
        | ms => Some ms
        end, 0).
Proof.
  unfold String_match, bind, set_lastIndex.
  destruct (execLoop_spec re (fun m _ => m) (n := length s + 2) [] s (next := 0))
    as (rs & Hrs & Hm & _); [lia | simpl; lia |].
  simpl in Hrs. rewrite Hrs. unfold spans. rewrite <- Hm.
  now destruct rs.
Qed.

Lemma filter_span_keep (g : text) : filter is_span (map Keep g) = [].
Proof. induction g; simpl; auto. Qed.

Lemma spans_first (re : Matcher) (s : text) :
  spans (segments re [] s 0) =
  match matchFrom re [] s 0 with
  | None => []
  | Some r => m_text r :: tl (spans (segments re [] s 0))
  end.
Proof.
  destruct (matchFrom re [] s 0) as [r|] eqn:E.
  - destruct (matchFrom_some _ _ _ _ E) as (g & a2 & len & -> & Hre & Ht & _ & Hs).
    rewrite Hs. unfold spans. rewrite filter_app.
    rewrite filter_span_keep.
    simpl app. destruct a2 as [|c a2]; simpl; rewrite Hre; simpl; now rewrite Ht.
  - rewrite (matchFrom_none _ _ _ _ E). unfold spans.
    now rewrite filter_span_keep.
Qed.

Section FilterProperties.
Variable re : Matcher.
Variable parse : text -> PandocBlockCapsule.

Lemma handleText_spec (t : text) (li : nat) :
  handleText re parse t li = Some (decoded re parse t, 0).
Proof.
  unfold handleText, bind, set_lastIndex. apply String_replace_spec.
Qed.

Lemma handleToken_spec (tok : PandocToken) (li : nat) :
  option_map fst (handleToken re parse tok li) = Some (probed re parse tok).
Proof.
  destruct tok as [ | | | | | | | | inlines | | | | | | | ]; try reflexivity.
  destruct inlines as [|x rest]; [reflexivity|].
  destruct x as [ t | | | | | | | | | | | | | | | ]; try reflexivity.
  destruct rest; [|reflexivity].
  unfold handleToken, probed, bind, set_lastIndex.
  rewrite String_match_spec, spans_first. unfold ret.
  destruct (matchFrom re [] t 0) as [r|]; [|reflexivity].
  now destruct (text_eqb _ _).
Qed.
End FilterProperties.

Section Histories.
Variable re : Matcher.
Variable parse : text -> PandocBlockCapsule.

Lemma history_total (h : list Call) (li : nat) :
  exists li', history re parse h li = Some (tt, li').
Proof.
  revert li; induction h as [|c h IH]; intros li.
  - now exists li.
  - simpl. unfold bind at 1.
    assert (exists li1, call re parse c li = Some (tt, li1)) as [li1 ->].
    { destruct c as [t|tok|s]; simpl; unfold bind, ret.
      - rewrite handleText_spec. eauto.
      - pose proof (handleToken_spec re parse tok li) as H.
        destruct (handleToken re parse tok li) as [[x l]|]; [eauto|discriminate].
      - eauto. }
    apply IH.
Qed.

Lemma result_after_handleText (h : list Call) (li : nat) (t : text) :
  result_after re parse h li (handleText re parse t) = Some (decoded re parse t).
Proof.
  unfold result_after, bind. destruct (history_total h li) as [li' ->].
  now rewrite handleText_spec.
Qed.

Lemma result_after_handleToken (h : list Call) (li : nat) (tok : PandocToken) :
  result_after re parse h li (handleToken re parse tok) = Some (probed re parse tok).
Proof.
  unfold result_after, bind. destruct (history_total h li) as [li' ->].
  apply handleToken_spec.
Qed.

(** C9: [handleText] and [handleToken] return the same value for the same
    input whatever calls came before on the shared regular expression object
    and whatever its [lastIndex] was: two runs on equal inputs, after any
    two histories, return equal results (and both do return). *)
Theorem handleText_handleToken_deterministic
        (h1 h2 : list Call) (li1 li2 : nat) (t : text) (tok : PandocToken) :
  result_after re parse h1 li1 (handleText re parse t)
    = result_after re parse h2 li2 (handleText re parse t) /\
  result_after re parse h1 li1 (handleToken re parse tok)
    = result_after re parse h2 li2 (handleToken re parse tok) /\
  result_after re parse h1 li1 (handleText re parse t) <> None /\
  result_after re parse h1 li1 (handleToken re parse tok) <> None.
Proof.
  rewrite !result_after_handleText, !result_after_handleToken.
  repeat split; congruence.
Qed.

(** After [handleText] the scan cursor is back at zero. *)
Lemma handleText_resets_cursor (t : text) (li : nat) :
  option_map snd (handleText re parse t li) = Some 0.
Proof. now rewrite handleText_spec. Qed.

(** ** The residual decoder *)

(** C10: [handleText] changes placeholder spans only: a text in which the
    placeholder pattern matches nowhere is returned as it is; and for every
    text, the one pass of the pattern from left to right cuts it into kept
    characters and spans, every span is a match of the pattern where it
    stands, and the output is the text with every kept character as it is
    and in place, only the spans being replaced. *)
Theorem handleText_frame (t : text) (li : nat) :
  (matchFrom re [] t 0 = None -> handleText re parse t li = Some (t, 0)) /\
  source_of (segments re [] t 0) = t /\
  handleText re parse t li
  = Some (render (decodeCapsule parse) (segments re [] t 0), 0) /\
  (forall pre post m gs,
      segments re [] t 0 = pre ++ Span m gs :: post ->
      exists len,
        re (rev (source_of pre)) (m ++ source_of post) = Some (len, gs) /\
        m = firstn len (m ++ source_of post)) /\
  (forall pre post c,
      segments re [] t 0 = pre ++ Keep c :: post ->
      t = source_of pre ++ c :: source_of post /\
      handleText re parse t li
      = Some (render (decodeCapsule parse) pre
                ++ c :: render (decodeCapsule parse) post, 0)).
Proof.
  split; [|split; [|split; [|split]]].
  - intros H. rewrite handleText_spec. unfold decoded.
    now rewrite (matchFrom_none _ _ _ _ H), render_keep.
  - apply source_of_segments.
  - apply handleText_spec.
  - intros pre post m gs H.
    destruct (@segments_spans_match re (length t) t [] pre post m gs (le_n _) H)
      as (len & Hre & Hm).
    rewrite app_nil_r in Hre. eauto.
  - intros pre post c H. split.
    + rewrite <- (source_of_segments re t) at 1. rewrite H.
      now rewrite source_of_app.
    + rewrite handleText_spec. unfold decoded. rewrite H.
      now rewrite render_app.
Qed.

(** C3: decoding is scoped by type: the input is the sequence of its kept
    characters and placeholder occurrences, and the output of [handleText]
    is that sequence with each occurrence of the yaml type replaced by its
    source and each occurrence of another type left as it is. *)
Theorem handleText_type_scoped (t : text) (li : nat) :
  source_of (segments re [] t 0) = t /\
  handleText re parse t li
    = Some (flat_map (resolveOccurrence parse) (segments re [] t 0), 0).
Proof.
  split; [apply source_of_segments|].
  rewrite handleText_spec. reflexivity.
Qed.

Lemma decoded_yamlFree (t : text) : yamlFree re parse t = true -> decoded re parse t = t.
Proof.
  unfold yamlFree, decoded. intros H.
  rewrite <- (source_of_segments re t) at 2.
  induction (segments re [] t 0) as [|x sg IH]; [reflexivity|].
  simpl in H. apply andb_prop in H as [Hx Hsg].
  unfold render, source_of in *. simpl. rewrite (IH Hsg). f_equal.
  destruct x as [c|m gs]; [reflexivity|]. unfold decodeCapsule.
  apply negb_true_iff in Hx. now rewrite Hx.
Qed.

(** C2, as amended: [handleText] is idempotent on every input whose decoded
    text holds no placeholder of the yaml type; and text that holds none is
    left unchanged. *)
Theorem handleText_idempotent_on_decoded (x : text) (li : nat) :
  yamlFree re parse (decoded re parse x) = true ->
  (y <- handleText re parse x ;; handleText re parse y) li
    = handleText re parse x li.
Proof.
  intros H. unfold bind. rewrite !handleText_spec.
  now rewrite (decoded_yamlFree _ H).
Qed.

(** C5, as amended: the probe returns a match exactly for a paragraph whose
    content is one string run in which the first placeholder found, parsed,
    has the yaml type; the match is that first placeholder.  For every
    other token it returns [null]. *)
Theorem handleToken_first_placeholder (tok : PandocToken) (li : nat) :
  exists res li',
    handleToken re parse tok li = Some (res, li') /\
    forall m,
      res = Some m <->
      exists t r,
        tok = Para [Str t] /\
        matchFrom re [] t 0 = Some r /\
        m_text r = m /\
        capsule_type (parse m) = kYamlMetadataCapsuleType.
Proof.
  pose proof (handleToken_spec re parse tok li) as H.
  destruct (handleToken re parse tok li) as [[res li']|]; [|discriminate].
  injection H as ->. exists (probed re parse tok), li'. split; [reflexivity|].
  intros m. split.
  - destruct tok as [ | | | | | | | | inlines | | | | | | | ]; try discriminate.
    destruct inlines as [|x rest]; [discriminate|].
    destruct x as [ t | | | | | | | | | | | | | | | ]; try discriminate.
    destruct rest; [|discriminate]. simpl.
    destruct (matchFrom re [] t 0) as [r|] eqn:E; [|discriminate].
    destruct (text_eqb _ _) eqn:Ety; [|discriminate].
    intros [= <-]. exists t, r. apply text_eqb_eq in Ety. auto.
  - intros (t & r & -> & E & <- & Hty). simpl. rewrite E, Hty.
    now rewrite text_eqb_refl.
Qed.
End Histories.

(** ** A placeholder that misses the registry *)

Lemma unknownCapsule_no_yaml :
  text_eqb (capsule_type unknownCapsule) kYamlMetadataCapsuleType = false.
Proof. reflexivity. Qed.

(** C8: when no placeholder of the text is found in the registry (the
    registry was dropped, or the ids are unknown), [handleText] returns the
    text unchanged, and it does return: nothing is reported. *)
Theorem handleText_registry_miss (re : Matcher) (reg : Registry) (t : text) (li : nat) :
  missesRegistry re reg t = true ->
  handleText re (parseWith reg) t li = Some (t, 0).
Proof.
  intros H. rewrite handleText_spec. f_equal. f_equal.
  apply decoded_yamlFree. unfold yamlFree, missesRegistry in *.
  rewrite forallb_forall in *. intros x Hx. specialize (H x Hx).
  destruct x as [c|m gs]; [reflexivity|]. unfold parseWith.
  destruct (lookup (nth 0 gs []) reg); [discriminate|].
  now rewrite unknownCapsule_no_yaml.
Qed.

Lemma handleText_registry_miss_witness :
  missesRegistry (matcher placeholderRegEx) []
    (js "see " ++ placeholder kYamlMetadataCapsuleType 3) = true /\
  handleText (matcher placeholderRegEx) (parseWith [])
    (js "see " ++ placeholder kYamlMetadataCapsuleType 3) 7
  = Some (js "see " ++ placeholder kYamlMetadataCapsuleType 3, 0).
Proof.
  split; [vm_compute; reflexivity|].
  apply handleText_registry_miss. vm_compute. reflexivity.
Defined.

(** ** The dedicated node *)

(** C6: [writeNode] returns, and appends to the node that is open exactly
    one node: a [yaml_metadata] node whose text content is the source of
    the capsule; nothing else of the writer changes. *)
Theorem writeNode_appends_yaml_node
        (uuid : text) (w : ProsemirrorWriter) (capsule : PandocBlockCapsule) :
  exists w' node,
    writeNode uuid w capsule = Some w' /\
    open_content (w_top w') = open_content (w_top w) ++ [node] /\
    open_type (w_top w') = open_type (w_top w) /\
    open_attrs (w_top w') = open_attrs (w_top w) /\
    w_below w' = w_below w /\
    node = PMNode yaml_metadata [(js "navigation_id", uuid)]
                  [PMText (capsule_source capsule)] /\
    textContent node = capsule_source capsule.
Proof.
  eexists. eexists. split; [reflexivity|]. simpl.
  repeat split. apply app_nil_r.
Qed.

(** ** What a pattern can match *)

Section Soundness.
Variable R : Type.

Lemma star_sound (p : ascii -> bool) (a : text) :
  forall (b : text) (k : text -> text -> option R) (x : R),
    star p b a k = Some x ->
    exists w a', a = w ++ a' /\ forallb p w = true /\ k (rev w ++ b) a' = Some x.
Proof.
  induction a as [|c a IH]; intros b k x; simpl.
  - intros H. now exists [], [].
  - destruct (p c) eqn:Ep.
    + destruct (star p (c :: b) a k) as [y|] eqn:E.
      * intros [= <-]. destruct (IH _ _ _ E) as (w & a' & -> & Hw & Hk).
        exists (c :: w), a'. simpl. rewrite Ep, Hw, <- app_assoc. auto.
      * intros H. now exists [], (c :: a).
    + intros H. now exists [], (c :: a).
Qed.

Lemma starLazy_sound (p : ascii -> bool) (a : text) :
  forall (b : text) (k : text -> text -> option R) (x : R),
    starLazy p b a k = Some x ->
    exists w a', a = w ++ a' /\ forallb p w = true /\ k (rev w ++ b) a' = Some x.
Proof.
  induction a as [|c a IH]; intros b k x; simpl.
  - destruct (k b []) eqn:E; [|discriminate]. intros [= <-]. now exists [], [].
  - destruct (k b (c :: a)) eqn:E.
    + intros [= <-]. now exists [], (c :: a).
    + destruct (p c) eqn:Ep; [|discriminate]. intros H.
      destruct (IH _ _ _ H) as (w & a' & -> & Hw & Hk).
      exists (c :: w), a'. simpl. rewrite Ep, Hw, <- app_assoc. auto.
Qed.

(** A successful run consumed a text of the language of the pattern and
    went on with its continuation from there. *)
Lemma run_sound (r : RegExpNode) :
  forall (b a : text) (cs : Captures) (k : Continuation R) (x : R),
    run r b a cs k = Some x ->
    exists w a' cs',
      a = w ++ a' /\ matches r b w a' /\ k (rev w ++ b) a' cs' = Some x.
Proof.
  induction r as [|p|r1 IH1 r2 IH2|r1 IH1 r2 IH2|p|p|n r1 IH1| |];
    intros b a cs k x; cbn [run matches].
  - intros H. now exists [], a, cs.
  - destruct a as [|c a]; [discriminate|].
    destruct (p c) eqn:Ep; [|discriminate]. intros H.
    exists [c], a, cs. simpl. eauto.
  - intros H. destruct (IH1 _ _ _ _ _ H) as (w1 & a1 & cs1 & -> & M1 & H1).
    destruct (IH2 _ _ _ _ _ H1) as (w2 & a2 & cs2 & -> & M2 & H2).
    exists (w1 ++ w2), a2, cs2. rewrite <- app_assoc, rev_app_distr, <- app_assoc.
    repeat split; auto. exists w1, w2. auto.
  - destruct (run r1 b a cs k) as [y|] eqn:E.
    + intros [= <-]. destruct (IH1 _ _ _ _ _ E) as (w & a' & cs' & ? & ? & ?).
      exists w, a', cs'. auto.
    + intros H. destruct (IH2 _ _ _ _ _ H) as (w & a' & cs' & ? & ? & ?).
      exists w, a', cs'. auto.
  - intros H. destruct (star_sound _ _ _ _ H) as (w & a' & ? & ? & ?).
    exists w, a', cs. auto.
  - intros H. destruct (starLazy_sound _ _ _ _ H) as (w & a' & ? & ? & ?).
    exists w, a', cs. auto.
  - intros H. destruct (IH1 _ _ _ _ _ H) as (w & a' & cs' & ? & ? & ?).
    eexists w, a', _. eauto.
  - destruct (lineStarts b) eqn:E; [|discriminate].
    intros H. exists [], a, cs. auto.
  - destruct (lineEnds a) eqn:E; [|discriminate].
    intros H. exists [], a, cs. auto.
Qed.
End Soundness.

Lemma matches_Lit (s b w a : text) : matches (Lit s) b w a -> w = s.
Proof.
  revert b w; induction s as [|c s IH]; intros b w; simpl.
  - auto.
  - intros (w1 & w2 & -> & (d & -> & Hd) & H2).
    apply Ascii.eqb_eq in Hd. subst d. simpl. f_equal. eapply IH; eauto.
Qed.

(** Every match of the yaml pattern starts a line and has the shape of a
    fenced block with its closing delimiter. *)
Lemma yaml_match_shape (b a : text) (len : nat) (gs : list text) :
  matcher yaml_match b a = Some (len, gs) ->
  exists g1 ws body cl g3 a',
    a = g1 ++ js "---" ++ ws ++ js "\n" ++ body ++ cl ++ g3 ++ a' /\
    lineStarts b = true /\
    forallb cls_tab_sp_gt g1 = true /\
    forallb cls_sp_tab ws = true /\
    (cl = js "\n---" \/ cl = js "\n...").
Proof.
  unfold matcher. intros H.
  apply run_sound in H as (w & a' & cs' & -> & M & _).
  unfold yaml_match in M. cbn [re_node matches] in M.
  destruct M as (w0 & wr & -> & [-> Hb] & g1 & wr1 & -> & Hg1 & M).
  destruct M as (w2 & wr2 & -> & M2 & g3 & w4 & -> & Hg3 & [-> _]).
  unfold yaml_body in M2. cbn [matches] in M2.
  destruct M2 as (d & x1 & -> & Md & ws & x2 & -> & Hws & M2).
  apply matches_Lit in Md. subst d.
  destruct M2 as (nl & x3 & -> & Mnl & body & cl & -> & _ & Mcl).
  apply matches_Lit in Mnl. subst nl.
  exists g1, ws, body, cl, g3, a'.
  repeat split; auto.
  - rewrite app_nil_r. cbn [app]. now rewrite <- !app_assoc.
  - destruct Mcl as [Mcl|Mcl]; apply matches_Lit in Mcl; auto.
Qed.

(** ** Occurrences *)

Lemma starts_with_spec (t s : text) :
  starts_with t s = true <-> exists v, s = t ++ v.
Proof.
  revert s; induction t as [|c t IH]; intros s; simpl.
  - split; eauto.
  - destruct s as [|d s].
    + split; [discriminate | intros [v H]; discriminate].
    + rewrite andb_true_iff, Ascii.eqb_eq, IH. split.
      * intros [-> [v ->]]. eauto.
      * intros [v [= -> ->]]. eauto.
Qed.

Lemma occursb_spec (t s : text) : occursb t s = true <-> occurs t s.
Proof.
  unfold occurs. induction s as [|d s IH]; simpl; rewrite orb_true_iff.
  - rewrite starts_with_spec. split.
    + intros [[v H]|H]; [|discriminate]. exists [], v. auto.
    + intros (u & v & H). left. destruct u; [eauto|discriminate].
  - rewrite starts_with_spec, IH. split.
    + intros [[v H]|(u & v & H)].
      * exists [], v. auto.
      * exists (d :: u), v. simpl. congruence.
    + intros (u & v & H). destruct u as [|e u]; simpl in H.
      * left. eauto.
      * right. injection H as -> ->. eauto.
Qed.

(** A run of blanks before a line feed is determined by the text. *)
Lemma blank_run_unique (ws ws' x x' : text) :
  forallb cls_sp_tab ws = true -> forallb cls_sp_tab ws' = true ->
  ws ++ LF :: x = ws' ++ LF :: x' -> ws = ws' /\ x = x'.
Proof.
  revert ws'; induction ws as [|c ws IH]; intros [|c' ws']; simpl;
    rewrite ?andb_true_iff.
  - intros _ _ [= ->]. auto.
  - intros _ [Hc _] [= <- _]. discriminate.
  - intros [Hc _] _ [= -> _]. discriminate.
  - intros [_ H] [_ H'] [= -> E]. destruct (IH _ H H' E) as [-> ->]. auto.
Qed.

(** A line that starts after the first line feed of a text starts in what
    follows that line feed. *)
Lemma line_start_after (p x g a : text) (c : ascii) :
  forallb (fun d => negb (isLineTerminator d)) p = true ->
  isLineTerminator c = true ->
  p ++ LF :: x = g ++ c :: a ->
  exists l, x = l ++ a.
Proof.
  revert g; induction p as [|d p IH]; intros g Hp Hc; simpl.
  - destruct g as [|e g]; simpl; intros [= <- ->].
    + now exists [].
    + exists (g ++ [c]). now rewrite <- app_assoc.
  - simpl in Hp. apply andb_prop in Hp as [Hd Hp].
    destruct g as [|e g]; simpl; intros [= <- E].
    + rewrite Hc in Hd. discriminate.
    + eapply IH; eauto.
Qed.

Lemma blanks_no_terminator (ws : text) :
  forallb cls_sp_tab ws = true ->
  forallb (fun d => negb (isLineTerminator d)) ws = true.
Proof.
  induction ws as [|c ws IH]; simpl; [auto|].
  rewrite !andb_true_iff. intros [Hc H]. split; [|auto].
  unfold cls_sp_tab in Hc. apply orb_prop in Hc as [Hc|Hc];
    apply Ascii.eqb_eq in Hc; subst c; reflexivity.
Qed.

(** ** The match pattern on a block without its closing delimiter *)

Lemma unterminated_no_match_at (ws rest g a2 : text) (len : nat) (gs : list text) :
  forallb cls_sp_tab ws = true ->
  js "---" ++ ws ++ js "\n" ++ rest = g ++ a2 ->
  matcher yaml_match (rev g) a2 = Some (len, gs) ->
  occurs (js "\n---") rest \/ occurs (js "\n...") rest.
Proof.
  intros Hws Hs H.
  apply yaml_match_shape in H
    as (g1 & ws' & body & cl & g3 & a' & -> & Hb & Hg1 & Hws' & Hcl).
  assert (Hocc : occurs cl rest).
  { destruct (rev g) as [|c b] eqn:Eg.
    - (* the match starts the text *)
      assert (g = []) as ->.
      { apply (f_equal (@rev ascii)) in Eg. now rewrite rev_involutive in Eg. }
      simpl app at 4 in Hs.
      destruct g1 as [|c1 g1].
      + cbn [app js unescape list_ascii_of_string] in Hs. simpl in Hs.
        injection Hs as Hs.
        destruct (blank_run_unique _ _ _ _ Hws Hws' Hs) as [_ ->].
        exists body, (g3 ++ a'). reflexivity.
      + simpl in Hs. injection Hs as <- _. discriminate.
    - (* the match starts a later line *)
      assert (g = rev b ++ [c]) as ->.
      { apply (f_equal (@rev ascii)) in Eg. now rewrite rev_involutive in Eg. }
      rewrite <- app_assoc in Hs. simpl app at 5 in Hs.
      rewrite app_assoc in Hs.
      apply line_start_after in Hs as [l ->]; auto.
      + exists (l ++ g1 ++ js "---" ++ ws' ++ js "\n" ++ body), (g3 ++ a').
        now rewrite <- !app_assoc.
      + rewrite forallb_app. rewrite (blanks_no_terminator _ Hws). reflexivity. }
  destruct Hcl as [-> | ->]; auto.
Qed.

Lemma scan_single (f : FilterSpec) (s : text) :
  scan s [f] = encode f (segments (f_match f) [] s 0) [].
Proof. reflexivity. Qed.

Lemma encode_keep (f : FilterSpec) (s : text) (reg : Registry) :
  encode f (map Keep s) reg = (s, reg).
Proof.
  induction s as [|c s IH]; simpl; [reflexivity|]. now rewrite IH.
Qed.

(** C4: a block that opens with a "---" line and has no closing delimiter
    after it is matched nowhere by the pattern of the yaml filter; replacing
    by that pattern returns the text as it is, and the scanner leaves the
    text and the registry unchanged.  All of these return. *)
Theorem unterminated_block_never_matches (ws rest : text) :
  forallb cls_sp_tab ws = true ->
  occursb (js "\n---") rest = false ->
  occursb (js "\n...") rest = false ->
  let s := js "---" ++ ws ++ js "\n" ++ rest in
  matchFrom (matcher yaml_match) [] s 0 = None /\
  (forall fn li, String_replace (matcher yaml_match) fn s li = Some (s, 0)) /\
  (forall li, String_match (matcher yaml_match) s li = Some (None, 0)) /\
  scan s [yamlFilter] = (s, []).
Proof.
  intros Hws H1 H2 s.
  assert (E : matchFrom (matcher yaml_match) [] s 0 = None).
  { destruct (matchFrom (matcher yaml_match) [] s 0) as [r|] eqn:E; [|reflexivity].
    exfalso.
    destruct (matchFrom_some _ _ _ _ E) as (g & a2 & len & Hs & Hre & _).
    rewrite app_nil_r in Hre.
    destruct (unterminated_no_match_at _ _ _ _ Hws Hs Hre) as [H|H];
      apply occursb_spec in H; congruence. }
  assert (Hseg := matchFrom_none _ _ _ _ E).
  repeat split.
  - exact E.
  - intros fn li. now rewrite String_replace_spec, Hseg, render_keep.
  - intros li. rewrite String_match_spec, Hseg. unfold spans.
    now rewrite filter_span_keep.
  - rewrite scan_single.
    change (f_match yamlFilter) with (matcher yaml_match).
    rewrite Hseg. apply encode_keep.
Qed.

Lemma unterminated_block_never_matches_witness :
  let s := js "---\ntitle: x\n" in
  matchFrom (matcher yaml_match) [] s 0 = None /\
  (forall fn li, String_replace (matcher yaml_match) fn s li = Some (s, 0)) /\
  (forall li, String_match (matcher yaml_match) s li = Some (None, 0)) /\
  scan s [yamlFilter] = (s, []).
Proof.
  apply (unterminated_block_never_matches [] (js "title: x\n")); reflexivity.
Defined.

(** ** The yaml pattern is its direct reading *)

Lemma run_Lit_eq (R : Type) (s : text) :
  forall (b a : text) (cs : Captures) (k : Continuation R),
    run (Lit s) b a cs k =
    if starts_with s a then k (rev s ++ b) (skipn (length s) a) cs else None.
Proof.
  induction s as [|c s IH]; intros b a cs k; simpl.
  - reflexivity.
  - destruct a as [|d a]; [reflexivity|].
    destruct (Ascii.eqb c d) eqn:E; simpl; [|reflexivity].
    apply Ascii.eqb_eq in E. subst d. rewrite IH, <- app_assoc. reflexivity.
Qed.

Lemma star_max (R : Type) (p : ascii -> bool) (k : text -> text -> option R) :
  (forall b c a, p c = true -> k b (c :: a) = None) ->
  forall a b, star p b a k = k (rev (takeWhile p a) ++ b) (dropWhile p a).
Proof.
  intros Hk. induction a as [|c a IH]; intros b; simpl; [reflexivity|].
  destruct (p c) eqn:Ep; [|reflexivity].
  rewrite IH. simpl. rewrite <- app_assoc. simpl.
  destruct (k (rev (takeWhile p a) ++ c :: b) (dropWhile p a)); [reflexivity|].
  now apply Hk.
Qed.

Lemma captured (w b : text) :
  rev (firstn (length (rev w ++ b) - length b) (rev w ++ b)) = w.
Proof.
  rewrite length_app, Nat.add_sub, firstn_prefix. apply rev_involutive.
Qed.

Lemma consumed (w b : text) : length (rev w ++ b) - length b = length w.
Proof. rewrite length_app, length_rev. lia. Qed.

Lemma blank_no_terminator (c : ascii) :
  cls_sp_tab c = true -> isLineTerminator c = false.
Proof.
  unfold cls_sp_tab. intros H. apply orb_prop in H as [H|H];
    apply Ascii.eqb_eq in H; subst c; reflexivity.
Qed.

(** The trailing blanks and the end of the line. *)
Lemma run_trailing (R : Type) (b a : text) (cs : Captures) (k : Continuation R) :
  run (Seq (Group 3 (Star cls_sp_tab)) LineEnd) b a cs k =
  if lineEnds (dropWhile cls_sp_tab a)
  then k (rev (takeWhile cls_sp_tab a) ++ b) (dropWhile cls_sp_tab a)
         ((3, takeWhile cls_sp_tab a) :: cs)
  else None.
Proof.
  cbn [run]. rewrite star_max.
  - now rewrite captured.
  - intros b' c a' Hc. cbn [lineEnds]. now rewrite (blank_no_terminator _ Hc).
Qed.

(** The lazy body and the closing delimiter. *)
Lemma starLazy_close (R : Type) (cs : Captures) (k : Continuation R) :
  (forall b a, lineEnds (dropWhile cls_sp_tab a) = false -> k b a cs = None) ->
  (forall b a, lineEnds (dropWhile cls_sp_tab a) = true -> k b a cs <> None) ->
  forall a b,
    starLazy cls_any b a
      (fun b' a' => run (Alt (Lit (js "\n---")) (Lit (js "\n..."))) b' a' cs k)
    = match findClose a with
      | Some (body, r) => k (rev (firstn 4 r) ++ rev body ++ b) (skipn 4 r) cs
      | None => None
      end.
Proof.
  intros Hno Hyes.
  assert (Hhead : forall a b,
    run (Alt (Lit (js "\n---")) (Lit (js "\n..."))) b a cs k
    = if closes a then k (rev (firstn 4 a) ++ b) (skipn 4 a) cs else None).
  { intros a b. cbn [run]. rewrite !run_Lit_eq. unfold closes.
    change (length (js "\n---")) with 4. change (length (js "\n...")) with 4.
    destruct (lineEnds (dropWhile cls_sp_tab (skipn 4 a))) eqn:El.
    - rewrite andb_true_r.
      destruct (starts_with (js "\n---") a) eqn:E1.
      + cbn [orb]. apply starts_with_spec in E1 as [v ->].
        change (firstn 4 (js "\n---" ++ v)) with (js "\n---").
        destruct (k (rev (js "\n---") ++ b) (skipn 4 (js "\n---" ++ v)) cs) eqn:Ek;
          [reflexivity|].
        now apply Hyes in Ek.
      + cbn [orb]. destruct (starts_with (js "\n...") a) eqn:E2; [|reflexivity].
        apply starts_with_spec in E2 as [v ->]. reflexivity.
    - rewrite andb_false_r, !(Hno _ _ El).
      now destruct (starts_with (js "\n---") a), (starts_with (js "\n...") a). }
  induction a as [|c a IH]; intros b.
  - cbn [starLazy findClose]. rewrite Hhead.
    destruct (closes []) eqn:E; [discriminate|reflexivity].
  - cbn [starLazy findClose]. rewrite Hhead.
    destruct (closes (c :: a)) eqn:E.
    + change (rev [] ++ b) with b.
      destruct (k (rev (firstn 4 (c :: a)) ++ b) (skipn 4 (c :: a)) cs) eqn:Ek;
        [reflexivity|].
      exfalso. revert Ek. apply Hyes.
      unfold closes in E. now apply andb_prop in E as [_ E].
    + unfold cls_any. rewrite IH.
      destruct (findClose a) as [[body r]|]; [|reflexivity].
      simpl. now rewrite <- app_assoc.
Qed.

Lemma run_Seq_eq (R : Type) (r1 r2 : RegExpNode) (b a : text) (cs : Captures)
      (k : Continuation R) :
  run (Seq r1 r2) b a cs k = run r1 b a cs (fun b' a' cs' => run r2 b' a' cs' k).
Proof. reflexivity. Qed.

Lemma run_Group_eq (R : Type) (n : nat) (r : RegExpNode) (b a : text)
      (cs : Captures) (k : Continuation R) :
  run (Group n r) b a cs k =
  run r b a cs
    (fun b' a' cs' => k b' a' ((n, rev (firstn (length b' - length b) b')) :: cs')).
Proof. reflexivity. Qed.

Lemma run_Star_eq (R : Type) (p : ascii -> bool) (b a : text) (cs : Captures)
      (k : Continuation R) :
  run (Star p) b a cs k = star p b a (fun b' a' => k b' a' cs).
Proof. reflexivity. Qed.

Lemma run_StarLazy_eq (R : Type) (p : ascii -> bool) (b a : text) (cs : Captures)
      (k : Continuation R) :
  run (StarLazy p) b a cs k = starLazy p b a (fun b' a' => k b' a' cs).
Proof. reflexivity. Qed.

Lemma run_LineStart_eq (R : Type) (b a : text) (cs : Captures) (k : Continuation R) :
  run LineStart b a cs k = if lineStarts b then k b a cs else None.
Proof. reflexivity. Qed.

Lemma findClose_closes (a body r : text) :
  findClose a = Some (body, r) -> a = body ++ r /\ closes r = true.
Proof.
  revert body; induction a as [|c a IH]; intros body; cbn [findClose].
  - destruct (closes []) eqn:E; [|discriminate]. intros [= <- <-]. auto.
  - destruct (closes (c :: a)) eqn:E.
    + intros [= <- <-]. auto.
    + destruct (findClose a) as [[body' r']|]; [|discriminate].
      intros [= <- <-]. destruct (IH _ eq_refl) as [-> H]. auto.
Qed.

Lemma run_yaml_body (R : Type) (b a : text) (cs : Captures) (k : Continuation R) :
  (forall b a, lineEnds (dropWhile cls_sp_tab a) = false -> k b a cs = None) ->
  (forall b a, lineEnds (dropWhile cls_sp_tab a) = true -> k b a cs <> None) ->
  run yaml_body b a cs k =
  if starts_with (js "---") a then
    let ws := takeWhile cls_sp_tab (skipn 3 a) in
    let a3 := dropWhile cls_sp_tab (skipn 3 a) in
    if starts_with (js "\n") a3 then
      match findClose (skipn 1 a3) with
      | Some (body, r) =>
          k (rev (js "---" ++ ws ++ js "\n" ++ body ++ firstn 4 r) ++ b)
            (skipn 4 r) cs
      | None => None
      end
    else None
  else None.
Proof.
  intros Hno Hyes. unfold yaml_body.
  rewrite run_Seq_eq, run_Lit_eq.
  destruct (starts_with (js "---") a); [|reflexivity].
  change (length (js "---")) with 3. cbv zeta.
  rewrite run_Seq_eq, run_Star_eq, star_max.
  - rewrite run_Seq_eq, run_Lit_eq.
    destruct (starts_with (js "\n") (dropWhile cls_sp_tab (skipn 3 a)));
      [|reflexivity].
    change (length (js "\n")) with 1.
    rewrite run_Seq_eq, run_StarLazy_eq.
    rewrite (starLazy_close cs k Hno Hyes).
    destruct (findClose _) as [[body r]|]; [|reflexivity].
    f_equal. rewrite !rev_app_distr, <- !app_assoc. reflexivity.
  - intros b' c a' Hc. rewrite run_Seq_eq, run_Lit_eq.
    change (starts_with (js "\n") (c :: a')) with (Ascii.eqb LF c && true).
    destruct (Ascii.eqb LF c) eqn:E; [|reflexivity].
    apply Ascii.eqb_eq in E. subst c. discriminate.
Qed.

(** The matcher of the yaml pattern is [yamlBlockAt]. *)
Theorem yaml_match_direct (b a : text) :
  matcher yaml_match b a =
  match yamlBlockAt b a with
  | Some (p1, p2, p3) => Some (length (p1 ++ p2 ++ p3), [p1; p2; p3])
  | None => None
  end.
Proof.
  unfold matcher, yaml_match, yamlBlockAt. cbn [re_node re_groups].
  rewrite run_Seq_eq, run_LineStart_eq.
  destruct (lineStarts b); [|reflexivity].
  rewrite run_Seq_eq, run_Group_eq, run_Star_eq, star_max.
  - rewrite captured, run_Seq_eq, run_Group_eq.
    set (p1 := takeWhile cls_tab_sp_gt a).
    set (a1 := dropWhile cls_tab_sp_gt a).
    rewrite run_yaml_body.
    + destruct (starts_with (js "---") a1); [|reflexivity]. cbv zeta.
      set (ws := takeWhile cls_sp_tab (skipn 3 a1)).
      destruct (starts_with (js "\n") (dropWhile cls_sp_tab (skipn 3 a1)));
        [|reflexivity].
      destruct (findClose _) as [[body r]|] eqn:Ef; [|reflexivity].
      apply findClose_closes in Ef as [_ Hr].
      unfold closes in Hr. apply andb_prop in Hr as [_ Hr].
      rewrite run_trailing, Hr.
      set (p2 := js "---" ++ ws ++ js "\n" ++ body ++ firstn 4 r).
      set (p3 := takeWhile cls_sp_tab (skipn 4 r)).
      rewrite captured. f_equal. f_equal.
      rewrite !length_app, !length_rev. lia.
    + intros b' a' H. now rewrite run_trailing, H.
    + intros b' a' H. now rewrite run_trailing, H.
  - intros b' c a' Hc.
    rewrite run_Seq_eq, run_Group_eq. unfold yaml_body.
    rewrite run_Seq_eq, run_Lit_eq.
    change (starts_with (js "---") (c :: a'))
      with (Ascii.eqb "-" c && starts_with (js "--") a').
    destruct (Ascii.eqb "-" c) eqn:E; [|reflexivity].
    apply Ascii.eqb_eq in E. subst c. discriminate.
Qed.

Lemma findClose_first (a body r : text) :
  findClose a = Some (body, r) ->
  forall u v, body = u ++ v -> v <> [] -> closes (v ++ r) = false.
Proof.
  revert body; induction a as [|c a IH]; intros body; cbn [findClose].
  - destruct (closes []); [|discriminate].
    intros [= <- <-] u v H Hv. now destruct u, v.
  - destruct (closes (c :: a)) eqn:E.
    + intros [= <- <-] u v H Hv. now destruct u, v.
    + destruct (findClose a) as [[body' r']|] eqn:Ef; [|discriminate].
      intros [= <- <-] u v H Hv.
      destruct (findClose_closes _ Ef) as [-> _].
      destruct u as [|d u]; simpl in H.
      * subst v. exact E.
      * injection H as <- ->. eapply IH; eauto.
Qed.

Lemma findClose_intro (body r : text) :
  closes r = true ->
  (forall u v, body = u ++ v -> v <> [] -> closes (v ++ r) = false) ->
  findClose (body ++ r) = Some (body, r).
Proof.
  intros Hr. induction body as [|c body IH]; intros H.
  - simpl app. destruct r; cbn [findClose]; now rewrite Hr.
  - simpl app. cbn [findClose].
    assert (H0 : closes (c :: body ++ r) = false)
      by (apply (H [] (c :: body)); [reflexivity|discriminate]).
    rewrite H0, IH; [reflexivity|].
    intros u v -> Hv. apply (H (c :: u) v eq_refl Hv).
Qed.

Lemma takeWhile_dropWhile (p : ascii -> bool) (a : text) :
  takeWhile p a ++ dropWhile p a = a.
Proof.
  induction a as [|c a IH]; simpl; [reflexivity|].
  destruct (p c); simpl; congruence.
Qed.

Lemma takeWhile_all (p : ascii -> bool) (a : text) :
  forallb p (takeWhile p a) = true.
Proof.
  induction a as [|c a IH]; simpl; [reflexivity|].
  destruct (p c) eqn:E; simpl; [now rewrite E|reflexivity].
Qed.

Lemma takeWhile_run (p : ascii -> bool) (w y : text) (c : ascii) :
  forallb p w = true -> p c = false ->
  takeWhile p (w ++ c :: y) = w /\ dropWhile p (w ++ c :: y) = c :: y.
Proof.
  intros Hw Hc. induction w as [|d w IH]; simpl.
  - now rewrite Hc.
  - simpl in Hw. apply andb_prop in Hw as [Hd Hw]. rewrite Hd.
    destruct (IH Hw) as [-> ->]. auto.
Qed.

Lemma starts_with_app (t x y : text) :
  starts_with t x = true -> starts_with t (x ++ y) = true.
Proof.
  intros H. apply starts_with_spec in H as [v ->].
  apply starts_with_spec. exists (v ++ y). now rewrite app_assoc.
Qed.

Lemma skipn_app_le (n : nat) (x y : text) :
  n <= length x -> skipn n (x ++ y) = skipn n x ++ y.
Proof.
  intros H. rewrite skipn_app. replace (n - length x) with 0 by lia. reflexivity.
Qed.

Lemma dropWhile_app (p : ascii -> bool) (x y : text) :
  dropWhile p x <> [] -> dropWhile p (x ++ y) = dropWhile p x ++ y.
Proof.
  induction x as [|c x IH]; simpl; [congruence|].
  destruct (p c); auto.
Qed.

Lemma dropWhile_stop (p : ascii -> bool) (x : text) (c : ascii) :
  p c = false -> dropWhile p (x ++ [c]) <> [].
Proof.
  intros Hc. induction x as [|d x IH]; simpl.
  - now rewrite Hc.
  - destruct (p d); [auto|discriminate].
Qed.

(** A closing delimiter found before the end of a body is found there in
    every longer text too. *)
Lemma closes_extend (v cl y : text) :
  cl = js "\n---" \/ cl = js "\n..." ->
  v <> [] ->
  closes (v ++ cl) = true -> closes (v ++ cl ++ y) = true.
Proof.
  intros Hcl Hv. unfold closes. rewrite !andb_true_iff, !orb_true_iff.
  intros [Hs Hl]. rewrite app_assoc. split.
  - destruct Hs as [Hs|Hs]; [left|right]; now apply starts_with_app.
  - assert (Hlen : 4 <= length (v ++ cl)).
    { rewrite length_app. destruct Hcl as [-> | ->]; simpl; lia. }
    rewrite skipn_app_le by exact Hlen.
    assert (Hne : dropWhile cls_sp_tab (skipn 4 (v ++ cl)) <> []).
    { assert (exists x c, v ++ cl = x ++ [c] /\ 4 <= length x /\ cls_sp_tab c = false)
        as (x & c & -> & Hx & Hc).
      { destruct Hcl as [-> | ->].
        - exists (v ++ js "\n--"), "-"%char. rewrite <- app_assoc, length_app.
          destruct v; [congruence|]. simpl. repeat split; lia.
        - exists (v ++ js "\n.."), "."%char. rewrite <- app_assoc, length_app.
          destruct v; [congruence|]. simpl. repeat split; lia. }
      rewrite skipn_app_le by exact Hx. now apply dropWhile_stop. }
    rewrite dropWhile_app by exact Hne.
    destruct (dropWhile cls_sp_tab (skipn 4 (v ++ cl))); [congruence|exact Hl].
Qed.

(** The body of a block that the pattern matches is itself matched by the
    pattern, whole, with neither leading context nor trailing blanks. *)
Lemma yamlBlockAt_body (b a p1 p2 p3 : text) :
  yamlBlockAt b a = Some (p1, p2, p3) ->
  yamlBlockAt [] p2 = Some ([], p2, []).
Proof.
  unfold yamlBlockAt at 1.
  destruct (lineStarts b); [|discriminate]. cbv zeta.
  destruct (starts_with (js "---") _); [|discriminate].
  set (x := skipn 3 (dropWhile cls_tab_sp_gt a)).
  destruct (starts_with (js "\n") (dropWhile cls_sp_tab x)) eqn:Enl; [|discriminate].
  apply starts_with_spec in Enl as [a4 Ea3]. rewrite Ea3.
  change (skipn 1 (js "\n" ++ a4)) with a4.
  destruct (findClose a4) as [[body r]|] eqn:Ef; [|discriminate].
  intros H.
  assert (Hp2 : p2 = js "---" ++ takeWhile cls_sp_tab x ++ js "\n" ++ body ++ firstn 4 r)
    by congruence.
  clear H. subst p2.
  destruct (findClose_closes _ Ef) as [-> Hr].
  assert (Hcl : exists cl y, r = cl ++ y /\ (cl = js "\n---" \/ cl = js "\n...")).
  { unfold closes in Hr. apply andb_prop in Hr as [Hr _].
    apply orb_prop in Hr as [Hr|Hr]; apply starts_with_spec in Hr as [y ->]; eauto. }
  destruct Hcl as (cl & y & -> & Hcl).
  assert (Hf4 : firstn 4 (cl ++ y) = cl) by (destruct Hcl as [-> | ->]; reflexivity).
  rewrite Hf4.
  set (ws := takeWhile cls_sp_tab x).
  assert (Hws : forallb cls_sp_tab ws = true) by apply takeWhile_all.
  unfold yamlBlockAt. cbn [lineStarts].
  change (takeWhile cls_tab_sp_gt (js "---" ++ ws ++ js "\n" ++ body ++ cl))
    with (@nil ascii).
  change (dropWhile cls_tab_sp_gt (js "---" ++ ws ++ js "\n" ++ body ++ cl))
    with (js "---" ++ ws ++ js "\n" ++ body ++ cl).
  change (starts_with (js "---") (js "---" ++ ws ++ js "\n" ++ body ++ cl))
    with true.
  cbv iota zeta.
  change (skipn 3 (js "---" ++ ws ++ js "\n" ++ body ++ cl))
    with (ws ++ LF :: body ++ cl).
  destruct (@takeWhile_run cls_sp_tab ws (body ++ cl) LF Hws eq_refl)
    as [-> ->].
  change (starts_with (js "\n") (LF :: body ++ cl)) with true. cbv iota.
  change (skipn 1 (LF :: body ++ cl)) with (body ++ cl).
  rewrite findClose_intro.
  - rewrite firstn_all2 by (destruct Hcl as [-> | ->]; simpl; lia).
    rewrite skipn_all2 by (destruct Hcl as [-> | ->]; simpl; lia).
    reflexivity.
  - destruct Hcl as [-> | ->]; reflexivity.
  - intros u v -> Hv.
    destruct (closes (v ++ cl)) eqn:E; [|reflexivity].
    apply (@closes_extend v cl y Hcl Hv) in E.
    now rewrite (@findClose_first _ _ _ Ef u v eq_refl Hv) in E.
Qed.

Lemma matchFrom_head (re : Matcher) (b a : text) (i len : nat) (gs : list text) :
  re b a = Some (len, gs) ->
  matchFrom re b a i = Some (mkMatch i (firstn len a) gs).
Proof. intros H. destruct a; simpl; now rewrite H. Qed.

(** The same, for the matcher of the pattern. *)
Lemma yaml_match_body_again (b a : text) (len : nat) (p1 p2 p3 : text) :
  matcher yaml_match b a = Some (len, [p1; p2; p3]) ->
  matchFrom (matcher yaml_match) [] p2 0 = Some (mkMatch 0 p2 [[]; p2; []]).
Proof.
  rewrite yaml_match_direct.
  destruct (yamlBlockAt b a) as [[[q1 q2] q3]|] eqn:E; [|discriminate].
  intros [= _ <- <- <-].
  apply yamlBlockAt_body in E.
  erewrite matchFrom_head by (rewrite yaml_match_direct, E; reflexivity).
  cbn [app]. now rewrite app_nil_r, firstn_all.
Qed.

(** ** Serialization *)

(** C7, as amended: the pandoc [writer] emits the current text content of
    the node, as it is, as raw markdown in one paragraph token; it adds no
    delimiter.  When that content is the body of a block that the match
    pattern matched (as the source of a capsule is, with its own
    delimiters), the pattern matches what was emitted again, whole. *)
Theorem writer_emits_content (output : PandocOutput) (node : ProsemirrorNode) :
  writer output node
  = output ++ [Para [RawInline (js "markdown") (emitted node)]] /\
  forall b a len p1 p3,
    matcher yaml_match b a = Some (len, [p1; emitted node; p3]) ->
    matchFrom (matcher yaml_match) [] (emitted node) 0
    = Some (mkMatch 0 (emitted node) [[]; emitted node; []]).
Proof.
  split; [reflexivity|].
  intros b a len p1 p3. apply yaml_match_body_again.
Qed.

Lemma writer_emits_content_witness :
  matchFrom (matcher yaml_match) [] scenario1 0
  = Some (mkMatch 0 scenario1 [[]; scenario1; []]).
Proof.
  apply (proj2 (writer_emits_content [] (PMNode yaml_metadata [] [PMText scenario1]))
               [] scenario1 16 [] []).
  vm_compute. reflexivity.
Defined.

(** ** One pass of the codec on concrete documents *)

(** C1: on the block "---\ntitle: x\n---" the scanner leaves one
    placeholder and a line feed, and [handleText] gives back the block with
    that line feed appended, which is not the source; the node that
    [writeNode] builds from the capsule holds the source of the capsule. *)
Theorem roundtrip_appends_newline :
  scan scenario1 [yamlFilter]
  = (placeholder kYamlMetadataCapsuleType 0 ++ js "\n",
     [(placeholder kYamlMetadataCapsuleType 0,
       mkCapsule 0 kYamlMetadataCapsuleType scenario1 (scenario1 ++ js "\n"))]) /\
  decodeText (snd (scan scenario1 [yamlFilter]))
             (fst (scan scenario1 [yamlFilter])) 0
  = Some (scenario1 ++ js "\n", 0) /\
  scenario1 ++ js "\n" <> scenario1 /\
  decodeText (snd (scan quotedBlock [yamlFilter]))
             (fst (scan quotedBlock [yamlFilter])) 0
  = Some (js "> ---\ntitle: x\n...\n", 0).
Proof.
  split; [vm_compute; reflexivity|].
  split; [vm_compute; reflexivity|].
  split; [|vm_compute; reflexivity].
  intros H. apply (f_equal (@length ascii)) in H. vm_compute in H. discriminate.
Qed.

(** The other path of the same pass: the probe claims the paragraph that
    holds the placeholder, and the node written holds the block. *)
Lemma scenario1_interceptor :
  let reg := snd (scan scenario1 [yamlFilter]) in
  let ph := placeholder kYamlMetadataCapsuleType 0 in
  probeToken reg (Para [Str ph]) 0 = Some (Some ph, 0) /\
  option_map (fun w => open_content (w_top w))
    (writeNode (js "id") (mkWriter (mkOpen doc [] []) []) (parseWith reg ph))
  = Some [PMNode yaml_metadata [(js "navigation_id", js "id")] [PMText scenario1]].
Proof. split; vm_compute; reflexivity. Qed.

(** C2 fails as stated: decoding the encoded [selfBlock] once gives a text
    that decoding changes again. *)
Lemma handleText_not_idempotent :
  let reg := snd (scan selfBlock [yamlFilter]) in
  let x := fst (scan selfBlock [yamlFilter]) in
  (y <- decodeText reg x ;; decodeText reg y) 0 <> decodeText reg x 0.
Proof. vm_compute. discriminate. Qed.

Lemma handleText_idempotent_on_decoded_witness :
  let reg := snd (scan scenario1 [yamlFilter]) in
  let x := fst (scan scenario1 [yamlFilter]) in
  yamlFree (matcher placeholderRegEx) (parseWith reg)
           (decoded (matcher placeholderRegEx) (parseWith reg) x) = true /\
  (y <- decodeText reg x ;; decodeText reg y) 7 = decodeText reg x 7.
Proof.
  split; [vm_compute; reflexivity|].
  apply handleText_idempotent_on_decoded. vm_compute. reflexivity.
Defined.

Lemma handleText_frame_witness :
  handleText (matcher placeholderRegEx) (parseWith []) (js "title: x") 5
  = Some (js "title: x", 0) /\
  handleText (matcher placeholderRegEx) (parseWith twoCapsules)
    (js "see " ++ placeholder kYamlMetadataCapsuleType 1 ++ js "!") 5
  = Some (js "see " ++ scenario1 ++ js "!", 0).
Proof.
  split.
  - apply (proj1 (handleText_frame (matcher placeholderRegEx) (parseWith [])
                                   (js "title: x") 5)).
    vm_compute. reflexivity.
  - eapply eq_trans.
    + apply (proj1 (proj2 (proj2
        (handleText_frame (matcher placeholderRegEx) (parseWith twoCapsules)
           (js "see " ++ placeholder kYamlMetadataCapsuleType 1 ++ js "!") 5)))).
    + vm_compute. reflexivity.
Defined.

(** C5 fails as stated: a paragraph of one string run that holds a
    placeholder of the yaml type after one of another type is not claimed. *)
Lemma handleToken_second_placeholder_unclaimed :
  let tok := Para [Str (placeholder kOtherCapsuleType 0
                          ++ placeholder kYamlMetadataCapsuleType 1)] in
  holdsYamlPlaceholder (matcher placeholderRegEx) (parseWith twoCapsules) tok = true /\
  probeToken twoCapsules tok 0 = Some (None, 0).
Proof. split; vm_compute; reflexivity. Qed.

(** C7 fails as stated: a node edited down to "title: x" is written as
    that text, without delimiters, and the match pattern does not find a
    block in what was written. *)
Lemma writer_does_not_rewrap :
  let node := PMNode yaml_metadata [] [PMText (js "title: x")] in
  writer [] node = [Para [RawInline (js "markdown") (js "title: x")]] /\
  matchFrom (matcher yaml_match) [] (emitted node) 0 = None.
Proof. split; vm_compute; reflexivity. Qed.

(** * Further properties of the filter *)

Lemma starts_with_prefix (t v : text) : starts_with t (t ++ v) = true.
Proof. apply starts_with_spec. eauto. Qed.

(** ** The match pattern *)

Lemma yamlBlockAt_tiles (b a p1 p2 p3 : text) :
  yamlBlockAt b a = Some (p1, p2, p3) ->
  exists ws body cl rest,
    a = p1 ++ p2 ++ p3 ++ rest /\
    p2 = js "---" ++ ws ++ js "\n" ++ body ++ cl /\
    (cl = js "\n---" \/ cl = js "\n...") /\
    lineStarts b = true /\
    lineEnds rest = true /\
    p1 = takeWhile cls_tab_sp_gt a /\
    forallb cls_sp_tab ws = true /\
    forallb cls_sp_tab p3 = true /\
    findClose (body ++ cl ++ p3 ++ rest) = Some (body, cl ++ p3 ++ rest).
Proof.
  unfold yamlBlockAt.
  destruct (lineStarts b) eqn:Eb; [|discriminate]. cbv zeta.
  destruct (starts_with (js "---") _) eqn:E1; [|discriminate].
  destruct (starts_with (js "\n") _) eqn:E2; [|discriminate].
  destruct (findClose _) as [[body r]|] eqn:Ef; [|discriminate].
  intros H.
  assert (Hp1 : p1 = takeWhile cls_tab_sp_gt a) by congruence.
  assert (Hp2 : p2 = js "---" ++ takeWhile cls_sp_tab (skipn 3 (dropWhile cls_tab_sp_gt a))
                  ++ js "\n" ++ body ++ firstn 4 r) by congruence.
  assert (Hp3 : p3 = takeWhile cls_sp_tab (skipn 4 r)) by congruence.
  clear H.
  set (a1 := dropWhile cls_tab_sp_gt a) in *.
  set (ws := takeWhile cls_sp_tab (skipn 3 a1)) in *.
  set (a3 := dropWhile cls_sp_tab (skipn 3 a1)) in *.
  apply starts_with_spec in E1 as [x1 E1].
  apply starts_with_spec in E2 as [a4 E2].
  rewrite E2 in Ef. change (skipn 1 (js "\n" ++ a4)) with a4 in Ef.
  destruct (findClose_closes _ Ef) as [Ea4 Hr].
  assert (Hcl : exists cl y, r = cl ++ y /\ (cl = js "\n---" \/ cl = js "\n...")).
  { unfold closes in Hr. apply andb_prop in Hr as [Hr _].
    apply orb_prop in Hr as [Hr|Hr]; apply starts_with_spec in Hr as [y ->]; eauto. }
  destruct Hcl as (cl & y & Er & Hcl).
  assert (Hf4 : firstn 4 r = cl /\ skipn 4 r = y).
  { subst r. destruct Hcl as [-> | ->]; split; reflexivity. }
  destruct Hf4 as [Hf4 Hs4]. rewrite Hf4 in Hp2. rewrite Hs4 in Hp3.
  assert (Hy : y = p3 ++ dropWhile cls_sp_tab y).
  { subst p3. symmetry. apply takeWhile_dropWhile. }
  exists ws, body, cl, (dropWhile cls_sp_tab y).
  assert (Ex1 : x1 = ws ++ a3).
  { assert (skipn 3 a1 = x1) as <- by now rewrite E1.
    symmetry. apply takeWhile_dropWhile. }
  repeat split; auto.
  - rewrite <- (takeWhile_dropWhile cls_tab_sp_gt a) at 1.
    fold a1. rewrite <- Hp1, E1, Ex1, E2, Ea4, Er, Hy at 1. rewrite Hp2.
    now rewrite <- !app_assoc.
  - unfold closes in Hr. apply andb_prop in Hr as [_ Hr]. now rewrite Hs4 in Hr.
  - apply takeWhile_all.
  - subst p3. apply takeWhile_all.
  - rewrite <- Hy, <- Er, <- Ea4. exact Ef.
Qed.

(** X1: the matcher of the yaml pattern, tried at a position, finds a
    block exactly when [yamlBlockAt] does, and then the length of the match
    and the three groups are those of that block. *)
Theorem yaml_pattern_reads_directly (b a : text) :
  (forall p1 p2 p3,
      yamlBlockAt b a = Some (p1, p2, p3) ->
      matcher yaml_match b a
      = Some (length p1 + length p2 + length p3, [p1; p2; p3])) /\
  (yamlBlockAt b a = None -> matcher yaml_match b a = None) /\
  (forall len gs,
      matcher yaml_match b a = Some (len, gs) ->
      exists p1 p2 p3,
        yamlBlockAt b a = Some (p1, p2, p3) /\ gs = [p1; p2; p3]).
Proof.
  rewrite yaml_match_direct. repeat split.
  - intros p1 p2 p3 ->. now rewrite !length_app, Nat.add_assoc.
  - now intros ->.
  - intros len gs. destruct (yamlBlockAt b a) as [[[p1 p2] p3]|]; [|discriminate].
    intros [= _ <-]. eauto.
Qed.

Lemma yaml_pattern_reads_directly_witness :
  matcher yaml_match [] (js "> ---\ntitle: x\n...  \nbody")
  = Some (length (js "> ") + length (js "---\ntitle: x\n...") + length (js "  "),
          [js "> "; js "---\ntitle: x\n..."; js "  "]).
Proof.
  apply (proj1 (yaml_pattern_reads_directly [] (js "> ---\ntitle: x\n...  \nbody"))).
  vm_compute. reflexivity.
Defined.

(** X2: the three groups of a match tile it: the input at the position is
    the leading context, the block and the trailing blanks, in this order,
    and then the end of a line; the match starts a line, the leading
    context holds tabs, blanks and [>] only, the block opens with "---" and
    ends with its closing delimiter, and the match has eight characters or
    more. *)
Theorem yaml_match_tiles (b a : text) (len : nat) (p1 p2 p3 : text) :
  matcher yaml_match b a = Some (len, [p1; p2; p3]) ->
  exists rest,
    a = p1 ++ p2 ++ p3 ++ rest /\
    len = length p1 + length p2 + length p3 /\
    8 <= len /\
    lineStarts b = true /\
    lineEnds rest = true /\
    forallb cls_tab_sp_gt p1 = true /\
    forallb cls_sp_tab p3 = true /\
    starts_with (js "---") p2 = true /\
    (exists x, p2 = x ++ js "\n---" \/ p2 = x ++ js "\n...").
Proof.
  rewrite yaml_match_direct.
  destruct (yamlBlockAt b a) as [[[q1 q2] q3]|] eqn:E; [|discriminate].
  intros [= <- <- <- <-].
  destruct (yamlBlockAt_tiles _ _ E)
    as (ws & body & cl & rest & Ha & Hp2 & Hcl & Hb & Hrest & Hp1 & Hws & Hp3 & _).
  exists rest.
  assert (Hlen : length (q1 ++ q2 ++ q3) = length q1 + length q2 + length q3)
    by (rewrite !length_app; lia).
  assert (H8 : 8 <= length q2).
  { rewrite Hp2, !length_app. destruct Hcl as [-> | ->]; simpl; lia. }
  repeat split; auto; try lia.
  - rewrite Hp1. apply takeWhile_all.
  - rewrite Hp2. apply starts_with_prefix.
  - exists (js "---" ++ ws ++ js "\n" ++ body).
    destruct Hcl as [-> | ->]; [left|right]; now rewrite Hp2, <- !app_assoc.
Qed.

Lemma yaml_match_tiles_witness :
  exists rest,
    js " ---\na: 1\n---\t\nrest" = js " " ++ js "---\na: 1\n---" ++ js "\t" ++ rest /\
    14 = length (js " ") + length (js "---\na: 1\n---") + length (js "\t") /\
    8 <= 14 /\
    lineStarts [] = true /\
    lineEnds rest = true /\
    forallb cls_tab_sp_gt (js " ") = true /\
    forallb cls_sp_tab (js "\t") = true /\
    starts_with (js "---") (js "---\na: 1\n---") = true /\
    (exists x, js "---\na: 1\n---" = x ++ js "\n---"
               \/ js "---\na: 1\n---" = x ++ js "\n...").
Proof.
  apply (@yaml_match_tiles [] (js " ---\na: 1\n---\t\nrest") 14).
  vm_compute. reflexivity.
Defined.

(** X3: the block ends at the first closing delimiter line.  The block of
    a match is its opening line, a body and a closing delimiter, "\n---" or
    "\n..."; a delimiter with only blanks after it on its line stands at
    the closing delimiter, and at no position between the opening line and
    it: wherever the text after the opening line is cut before such a
    delimiter line, the cut is not before the end of the body. *)
Theorem yaml_match_first_close (b a : text) (len : nat) (p1 p2 p3 : text) :
  matcher yaml_match b a = Some (len, [p1; p2; p3]) ->
  exists ws body cl rest,
    a = p1 ++ p2 ++ p3 ++ rest /\
    p2 = js "---" ++ ws ++ js "\n" ++ body ++ cl /\
    (cl = js "\n---" \/ cl = js "\n...") /\
    forallb cls_sp_tab ws = true /\
    closes (cl ++ p3 ++ rest) = true /\
    (forall u v, body = u ++ v -> v <> [] ->
                 closes (v ++ cl ++ p3 ++ rest) = false) /\
    (forall body' r',
        body ++ cl ++ p3 ++ rest = body' ++ r' -> closes r' = true ->
        length body <= length body').
Proof.
  rewrite yaml_match_direct.
  destruct (yamlBlockAt b a) as [[[q1 q2] q3]|] eqn:E; [|discriminate].
  intros [= _ <- <- <-].
  destruct (yamlBlockAt_tiles _ _ E)
    as (ws & body & cl & rest & Ha & Hp2 & Hcl & _ & _ & _ & Hws & _ & Hf).
  assert (Hfirst : forall u v, body = u ++ v -> v <> [] ->
                               closes (v ++ cl ++ q3 ++ rest) = false).
  { intros u v Hb Hv. eapply findClose_first; eauto. }
  exists ws, body, cl, rest.
  split; [exact Ha|]. split; [exact Hp2|]. split; [exact Hcl|].
  split; [exact Hws|]. split; [now destruct (findClose_closes _ Hf)|].
  split; [exact Hfirst|].
  intros body' r' Hsplit Hr'.
  destruct (le_lt_dec (length body) (length body')) as [Hle|Hlt]; [exact Hle|].
  exfalso.
  assert (Hb : body = body' ++ skipn (length body') body).
  { assert (Hpre : firstn (length body') body = body').
    { assert (H1 : firstn (length body') (body ++ cl ++ q3 ++ rest) = body')
        by (rewrite Hsplit; apply firstn_prefix).
      rewrite firstn_app in H1.
      replace (length body' - length body) with 0 in H1 by lia.
      cbn [firstn] in H1. now rewrite app_nil_r in H1. }
    rewrite <- Hpre at 1. symmetry. apply firstn_skipn. }
  assert (Hv : skipn (length body') body <> []).
  { intros Hnil. apply (f_equal (@length ascii)) in Hnil.
    rewrite length_skipn in Hnil. simpl in Hnil. lia. }
  assert (Hr : r' = skipn (length body') body ++ cl ++ q3 ++ rest).
  { rewrite Hb in Hsplit at 1. rewrite <- app_assoc in Hsplit.
    now apply app_inv_head in Hsplit. }
  rewrite Hr, (Hfirst _ _ Hb Hv) in Hr'. discriminate.
Qed.

Lemma yaml_match_first_close_witness :
  exists ws body cl rest,
    js "---\na\n---\nb\n---" = [] ++ js "---\na\n---" ++ [] ++ rest /\
    js "---\na\n---" = js "---" ++ ws ++ js "\n" ++ body ++ cl /\
    (cl = js "\n---" \/ cl = js "\n...") /\
    forallb cls_sp_tab ws = true /\
    closes (cl ++ [] ++ rest) = true /\
    (forall u v, body = u ++ v -> v <> [] ->
                 closes (v ++ cl ++ [] ++ rest) = false) /\
    (forall body' r',
        body ++ cl ++ [] ++ rest = body' ++ r' -> closes r' = true ->
        length body <= length body').
Proof.
  apply (@yaml_match_first_close [] (js "---\na\n---\nb\n---") 9).
  vm_compute. reflexivity.
Defined.

(** Where a closing delimiter is found before the end of [v ++ cl], a
    delimiter occurs in [v]. *)
Lemma closes_occurs (v : text) :
  v <> [] ->
  closes (v ++ js "\n---") = true ->
  occurs (js "\n---") v \/ occurs (js "\n...") v.
Proof.
  intros Hv H. unfold closes in H. apply andb_prop in H as [H _].
  assert (Hlong : forall t, length t = 4 -> starts_with t (v ++ js "\n---") = true ->
                            4 <= length v -> occurs t v).
  { intros t Ht Hs Hl. apply starts_with_spec in Hs as [w Hs].
    exists [], (skipn 4 v). simpl.
    assert (E : firstn 4 (v ++ js "\n---") = t).
    { rewrite Hs, <- Ht. apply firstn_prefix. }
    rewrite firstn_app in E. replace (4 - length v) with 0 in E by lia.
    simpl firstn at 2 in E. rewrite app_nil_r in E.
    rewrite <- E. symmetry. apply firstn_skipn. }
  destruct (le_lt_dec 4 (length v)) as [Hl|Hl].
  - apply orb_prop in H as [H|H]; [left|right]; now apply Hlong.
  - exfalso.
    destruct v as [|c1 [|c2 [|c3 [|c4 v]]]]; [congruence| | | |simpl in Hl; lia];
      apply orb_prop in H as [H|H];
      apply starts_with_spec in H as [w H]; vm_compute in H; congruence.
Qed.

(** X4: a block as the insert command lays it out, "---" and a line feed,
    a body, a line feed and "---", is matched whole by the pattern, with
    empty leading context and no trailing blanks, whenever no delimiter
    occurs in the body. *)
Theorem fenced_block_matches (body : text) :
  occursb (js "\n---") body = false ->
  occursb (js "\n...") body = false ->
  let t := kYamlLeading ++ body ++ kYamlTrailing in
  matcher yaml_match [] t = Some (length t, [[]; t; []]).
Proof.
  intros H1 H2 t.
  assert (E : yamlBlockAt [] t = Some ([], t, [])).
  { unfold yamlBlockAt, t. cbn [lineStarts].
    change (kYamlLeading ++ body ++ kYamlTrailing)
      with ("-"%char :: "-"%char :: "-"%char :: LF :: body ++ kYamlTrailing).
    cbn [takeWhile dropWhile cls_tab_sp_gt].
    change (cls_tab_sp_gt "-") with false. cbv iota zeta.
    change (starts_with (js "---")
              ("-"%char :: "-"%char :: "-"%char :: LF :: body ++ kYamlTrailing))
      with true. cbv iota.
    change (skipn 3 ("-"%char :: "-"%char :: "-"%char :: LF :: body ++ kYamlTrailing))
      with (LF :: body ++ kYamlTrailing).
    cbn [takeWhile dropWhile]. change (cls_sp_tab LF) with false. cbv iota.
    change (starts_with (js "\n") (LF :: body ++ kYamlTrailing)) with true.
    cbv iota.
    change (skipn 1 (LF :: body ++ kYamlTrailing)) with (body ++ kYamlTrailing).
    rewrite findClose_intro.
    - reflexivity.
    - reflexivity.
    - intros u v -> Hv.
      destruct (closes (v ++ kYamlTrailing)) eqn:E; [|reflexivity].
      exfalso. destruct (closes_occurs Hv E) as [(x & y & ->)|(x & y & ->)].
      + assert (occursb (js "\n---") (u ++ x ++ js "\n---" ++ y) = true).
        { apply occursb_spec. exists (u ++ x), y. now rewrite <- app_assoc. }
        congruence.
      + assert (occursb (js "\n...") (u ++ x ++ js "\n..." ++ y) = true).
        { apply occursb_spec. exists (u ++ x), y. now rewrite <- app_assoc. }
        congruence. }
  rewrite yaml_match_direct, E. cbn [app]. now rewrite app_nil_r.
Qed.

Lemma fenced_block_matches_witness :
  matcher yaml_match [] (kYamlLeading ++ js "title: x" ++ kYamlTrailing)
  = Some (length (kYamlLeading ++ js "title: x" ++ kYamlTrailing),
          [[]; kYamlLeading ++ js "title: x" ++ kYamlTrailing; []]).
Proof.
  apply (fenced_block_matches (js "title: x")); vm_compute; reflexivity.
Defined.

(** X5: the opening line admits blanks only after its three dashes: where
    another character than a blank or a line feed follows them (a fourth
    dash, a comment, a carriage return), the pattern does not match at the
    position. *)
Theorem yaml_opening_line_is_strict (b p1 ws rest : text) (c : ascii) :
  forallb cls_tab_sp_gt p1 = true ->
  forallb cls_sp_tab ws = true ->
  cls_sp_tab c = false ->
  c <> LF ->
  matcher yaml_match b (p1 ++ js "---" ++ ws ++ c :: rest) = None.
Proof.
  intros Hp1 Hws Hc Hlf.
  rewrite yaml_match_direct. unfold yamlBlockAt.
  destruct (lineStarts b); [|reflexivity]. cbv zeta.
  change (js "---" ++ ws ++ c :: rest)
    with ("-"%char :: js "--" ++ ws ++ c :: rest).
  destruct (@takeWhile_run cls_tab_sp_gt p1 (js "--" ++ ws ++ c :: rest) "-" Hp1 eq_refl)
    as [_ ->].
  change (starts_with (js "---") ("-"%char :: js "--" ++ ws ++ c :: rest)) with true.
  cbv iota.
  change (skipn 3 ("-"%char :: js "--" ++ ws ++ c :: rest)) with (ws ++ c :: rest).
  destruct (@takeWhile_run cls_sp_tab ws rest c Hws Hc) as [_ ->].
  replace (starts_with (js "\n") (c :: rest)) with false; [reflexivity|].
  symmetry. change (starts_with (js "\n") (c :: rest)) with (Ascii.eqb LF c && true).
  destruct (Ascii.eqb LF c) eqn:E; [|reflexivity].
  apply Ascii.eqb_eq in E. congruence.
Qed.

Lemma yaml_opening_line_is_strict_witness :
  matcher yaml_match [] (js "> " ++ js "---" ++ js " " ++ CR :: js "\ntitle: x\n---")
  = None.
Proof.
  apply yaml_opening_line_is_strict; try reflexivity.
  intros H. vm_compute in H. discriminate.
Defined.

(** ** The dedicated node, written and serialized *)

(** X6: import, export and import again of an unedited block: the node
    that [writeNode] appends for a capsule is written by the pandoc
    [writer] as the source of the capsule and nothing else; and when that
    source is the block of a match of the pattern, the pattern matches what
    was written again, whole, as the same block. *)
Theorem unedited_node_round_trip
        (uuid : text) (w : ProsemirrorWriter) (capsule : PandocBlockCapsule)
        (output : PandocOutput) (b a : text) (len : nat) (p1 p3 : text) :
  matcher yaml_match b a = Some (len, [p1; capsule_source capsule; p3]) ->
  exists w' node,
    writeNode uuid w capsule = Some w' /\
    open_content (w_top w') = open_content (w_top w) ++ [node] /\
    writer output node
    = output ++ [Para [RawInline (js "markdown") (capsule_source capsule)]] /\
    matchFrom (matcher yaml_match) [] (emitted node) 0
    = Some (mkMatch 0 (capsule_source capsule)
                    [[]; capsule_source capsule; []]).
Proof.
  intros H. eexists. eexists. split; [reflexivity|]. cbn [w_top open_content add_child].
  split; [reflexivity|].
  unfold writer, writeToken_Para, writeRawMarkdown, emitted.
  cbn [node_content fragment_text flat_map app]. rewrite app_nil_r.
  split; [reflexivity|]. exact (yaml_match_body_again _ _ H).
Qed.

Lemma unedited_node_round_trip_witness :
  exists w' node,
    writeNode (js "id") (mkWriter (mkOpen doc [] []) [])
              (mkCapsule 0 kYamlMetadataCapsuleType scenario1 (enclose scenario1))
    = Some w' /\
    open_content (w_top w') = [] ++ [node] /\
    writer [] node = [] ++ [Para [RawInline (js "markdown") scenario1]] /\
    matchFrom (matcher yaml_match) [] (emitted node) 0
    = Some (mkMatch 0 scenario1 [[]; scenario1; []]).
Proof.
  apply (@unedited_node_round_trip (js "id") (mkWriter (mkOpen doc [] []) [])
           (mkCapsule 0 kYamlMetadataCapsuleType scenario1 (enclose scenario1))
           [] [] (js "> " ++ scenario1) 18 (js "> ") []).
  vm_compute. reflexivity.
Defined.

(** ** The probe and the decoder *)

Section Probe.
Variable re : Matcher.
Variable parse : text -> PandocBlockCapsule.

Lemma matchFrom_leftmost (a b : text) (i : nat) (r : MatchResult) :
  matchFrom re b a i = Some r ->
  exists g a2 len,
    a = g ++ a2 /\
    re (rev g ++ b) a2 = Some (len, m_groups r) /\
    m_text r = firstn len a2 /\
    forall g1 g2, g = g1 ++ g2 -> g2 <> [] -> re (rev g1 ++ b) (g2 ++ a2) = None.
Proof.
  revert b i; induction a as [|c a IH]; intros b i; simpl.
  - destruct (re b []) as [[len gs]|] eqn:E; [|discriminate].
    intros [= <-]. exists [], [], len. simpl. repeat split; auto.
    intros g1 g2 H Hg. now destruct g1, g2.
  - destruct (re b (c :: a)) as [[len gs]|] eqn:E.
    + intros [= <-]. exists [], (c :: a), len. simpl. repeat split; auto.
      intros g1 g2 H Hg. now destruct g1, g2.
    + intros H. destruct (IH _ _ H) as (g & a2 & len & -> & Hre & Ht & Hmin).
      exists (c :: g), a2, len. simpl. rewrite <- app_assoc. simpl.
      repeat split; auto.
      intros g1 g2 Hg Hg2. destruct g1 as [|d g1]; simpl in Hg.
      * subst g2. simpl. exact E.
      * injection Hg as <- ->. simpl. rewrite <- app_assoc. simpl.
        now apply Hmin.
Qed.

Lemma handleToken_full (tok : PandocToken) (li : nat) :
  handleToken re parse tok li
  = Some (probed re parse tok, if scansToken tok then 0 else li).
Proof.
  destruct tok as [ | | | | | | | | inlines | | | | | | | ]; try reflexivity.
  destruct inlines as [|x rest]; [reflexivity|].
  destruct x as [ t | | | | | | | | | | | | | | | ]; try reflexivity.
  destruct rest; [|reflexivity].
  unfold handleToken, probed, scansToken, bind, set_lastIndex.
  rewrite String_match_spec, spans_first. unfold ret.
  destruct (matchFrom re [] t 0) as [r|]; [|reflexivity].
  now destruct (text_eqb _ _).
Qed.

Lemma probed_candidate (tok : PandocToken) (m : text) :
  probed re parse tok = Some m ->
  exists t r,
    tok = Para [Str t] /\ matchFrom re [] t 0 = Some r /\ m_text r = m /\
    capsule_type (parse m) = kYamlMetadataCapsuleType.
Proof.
  destruct tok as [ | | | | | | | | inlines | | | | | | | ]; try discriminate.
  destruct inlines as [|x rest]; [discriminate|].
  destruct x as [ t | | | | | | | | | | | | | | | ]; try discriminate.
  destruct rest; [|discriminate]. simpl.
  destruct (matchFrom re [] t 0) as [r|] eqn:E; [|discriminate].
  destruct (text_eqb _ _) eqn:Ety; [|discriminate].
  intros [= <-]. exists t, r. apply text_eqb_eq in Ety. auto.
Qed.

(** X7: what the probe returns is a part of the text of the token, and
    the leftmost match of the placeholder pattern in it: the pattern matches
    there and at no position before. *)
Theorem handleToken_returns_leftmost_match
        (tok : PandocToken) (li li' : nat) (m : text) :
  handleToken re parse tok li = Some (Some m, li') ->
  exists t u v len gs,
    tok = Para [Str t] /\
    t = u ++ m ++ v /\
    re (rev u) (m ++ v) = Some (len, gs) /\
    m = firstn len (m ++ v) /\
    forall u1 u2, u = u1 ++ u2 -> u2 <> [] -> re (rev u1) (u2 ++ m ++ v) = None.
Proof.
  rewrite handleToken_full. intros [= H _].
  apply probed_candidate in H as (t & r & -> & E & <- & _).
  destruct (matchFrom_leftmost _ _ _ E) as (g & a2 & len & -> & Hre & Ht & Hmin).
  rewrite app_nil_r in Hre.
  exists (g ++ a2), g, (skipn len a2), len, (m_groups r).
  rewrite Ht, firstn_skipn. repeat split; auto.
  intros u1 u2 Hu Hu2. specialize (Hmin u1 u2 Hu Hu2).
  now rewrite app_nil_r in Hmin.
Qed.

(** X8: the scan cursor after a call: [handleText] leaves it at zero;
    [handleToken] leaves it at zero when it scans the token, a paragraph of
    one string run, and does not touch it for any other token. *)
Theorem entry_points_leave_cursor (t : text) (tok : PandocToken) (li : nat) :
  option_map snd (handleText re parse t li) = Some 0 /\
  option_map snd (handleToken re parse tok li)
  = Some (if scansToken tok then 0 else li).
Proof.
  split.
  - now rewrite handleText_spec.
  - now rewrite handleToken_full.
Qed.


End Probe.


Lemma handleToken_returns_leftmost_match_witness :
  let ph := placeholder kYamlMetadataCapsuleType 1 in
  exists t u v len gs,
    Para [Str (js "see " ++ ph ++ js "!")] = Para [Str t] /\
    t = u ++ ph ++ v /\
    matcher placeholderRegEx (rev u) (ph ++ v) = Some (len, gs) /\
    ph = firstn len (ph ++ v) /\
    forall u1 u2, u = u1 ++ u2 -> u2 <> [] ->
                  matcher placeholderRegEx (rev u1) (u2 ++ ph ++ v) = None.
Proof.
  apply (@handleToken_returns_leftmost_match
           (matcher placeholderRegEx) (parseWith twoCapsules)
           (Para [Str (js "see " ++ placeholder kYamlMetadataCapsuleType 1 ++ js "!")])
           9 0).
  vm_compute. reflexivity.
Defined.


(** ** The insert command *)

